(** * SupabaseConnector: session handling and the upload bridge

    A shallow embedding of [src/library/SupabaseConnector.ts].

    The connector talks to three collaborators that live outside the
    repository: the identity provider ([client.auth]), the remote
    relational store ([client.from(table)]) and the local queue of pending
    writes ([database.getNextCrudTransaction()], [transaction.complete()]).
    Every call to the provider, to the store and to [complete()] is recorded
    in a log of events, and the answer the collaborator gives is a function
    of the log so far, so that a collaborator can answer differently each
    time it is asked. What [getNextCrudTransaction()] resolved to is an
    argument of [uploadData].

    Conventions:
    - a JS string is a [string] of 8-bit characters; of the JS line
      terminators only LF and CR exist in that range;
    - a JS number that is computed with (the expiry of a session) is an
      IEEE 754 binary64, the [spec_float] of the Standard Library at
      precision 53 and maximal exponent 1024; a number that only travels
      inside a record for the store is kept as a [Z];
    - console output is part of the event log. *)

From Stdlib Require Import ZArith Ascii.
From Stdlib Require Import Floats.SpecFloat.
From stdpp Require Import gmap strings list fin_maps.

(** ** Values *)

(** The JS values that can sit in a column of a record, or in the [code]
    attribute of a thrown value. *)
Inductive jsval :=
  | JUndefined
  | JNull
  | JBool (b : bool)
  | JNum (n : Z)
  | JStr (s : string).

#[global] Instance jsval_eq_dec : EqDecision jsval.
Proof. solve_decision. Defined.

(** ** Numbers and dates *)

#[global] Instance spec_float_eq_dec : EqDecision spec_float.
Proof. solve_decision. Defined.

(** The number written as an integer literal. *)
Definition number_of_Z (z : Z) : spec_float := binary_normalize 53 1024 z 0 false.

(** [x * y] *)
Definition number_mul (x y : spec_float) : spec_float := SFmul 53 1024 x y.

(** [ToBoolean] of a number: [+0], [-0] and [NaN] are falsy. *)
Definition number_truthy (x : spec_float) : bool :=
  match x with
  | S754_zero _ | S754_nan => false
  | S754_infinity _ | S754_finite _ _ _ => true
  end.

(** The largest time value of a date, in milliseconds. *)
Definition max_time_value : Z := 8640000000000000.

(** Whether [m * 2^e] is beyond [max_time_value]. *)
Definition beyond_max_time_value (m : positive) (e : Z) : bool :=
  if (0 <=? e)%Z then (max_time_value <? Z.pos m * 2 ^ e)%Z
  else (max_time_value * 2 ^ (- e) <? Z.pos m)%Z.

(** [TimeClip]: [NaN] ([None]) for a number that is not finite or beyond
    [max_time_value] in magnitude, else the number cut to an integer
    towards zero. *)
Definition TimeClip (time : spec_float) : option Z :=
  match time with
  | S754_nan | S754_infinity _ => None
  | S754_zero _ => Some 0%Z
  | S754_finite s m e =>
      if beyond_max_time_value m e then None
      else Some (if s then - Z.shiftl (Z.pos m) e else Z.shiftl (Z.pos m) e)%Z
  end.

(** A date: its time value, [None] for an Invalid Date. *)
Record Date := { time_value : option Z }.

(** [new Date(value)] for a number. *)
Definition new_Date (value : spec_float) : Date :=
  {| time_value := TimeClip value |}.

(** A thrown value: what [catch (ex: any)] can observe of it. *)
Record JsError := {
  err_name : string;
  err_message : string;
  err_code : jsval;
}.

#[global] Instance JsError_eq_dec : EqDecision JsError.
Proof. solve_decision. Defined.

(** [new Error(message)] *)
Definition new_Error (message : string) : JsError :=
  {| err_name := "Error"; err_message := message; err_code := JUndefined |}.

(** [Error.prototype.toString] *)
Definition error_toString (e : JsError) : string :=
  if String.eqb (err_name e) "" then err_message e
  else if String.eqb (err_message e) "" then err_name e
  else err_name e +:+ ": " +:+ err_message e.

(** [`${error}`] for [error : AuthError | null] *)
Definition template_of_error (error : option JsError) : string :=
  match error with
  | None => "null"
  | Some e => error_toString e
  end.

(** How a call ends: it returns, or it throws. *)
Inductive Completion (A : Type) :=
  | Normal (a : A)
  | Threw (ex : JsError).
Arguments Normal {A} a.
Arguments Threw {A} ex.

(** ** Configuration, sessions, credentials *)

Record SupabaseConfig := {
  supabaseUrl : string;
  supabaseAnonKey : string;
  powersyncUrl : string;
}.

(** The two fields of a provider session that the connector reads. *)
Record Session := {
  access_token : option string;
  expires_at : option spec_float;
}.

#[global] Instance Session_eq_dec : EqDecision Session.
Proof. solve_decision. Defined.

(** The shape both [getSession()] and [signInWithPassword()] resolve to:
    [{ data: { session }, error }]. *)
Record AuthResponse := {
  data_session : option Session;
  error : option JsError;
}.

Record Credentials := {
  endpoint : string;
  token : string;
  expiresAt : option Date;
}.

(** ** Pending writes and the remote store *)

(** The members of the [UpdateType] enum of the sync library. *)
Definition UpdateType_PUT : string := "PUT".
Definition UpdateType_PATCH : string := "PATCH".
Definition UpdateType_DELETE : string := "DELETE".

Record CrudEntry := {
  crud_op : string;
  crud_table : string;
  crud_id : string;
  crud_opData : option (gmap string jsval);
}.

#[global] Instance CrudEntry_eq_dec : EqDecision CrudEntry.
Proof. solve_decision. Defined.

(** A request to the remote store, as built from a table handle:
    [upsert(record)], [update(values).eq("id", id)],
    [delete().eq("id", id)]. *)
Inductive RemoteCall :=
  | Upsert (table : string) (record : gmap string jsval)
  | Update (table : string) (values : option (gmap string jsval)) (id : string)
  | Delete (table : string) (id : string).

#[global] Instance RemoteCall_eq_dec : EqDecision RemoteCall.
Proof. solve_decision. Defined.

(** The [error] member of a store response. *)
Record PostgrestError := {
  pg_message : string;
  pg_code : string;
}.

#[global] Instance PostgrestError_eq_dec : EqDecision PostgrestError.
Proof. solve_decision. Defined.

(** An awaited store request either resolves to a response, whose [error]
    may be set, or rejects. *)
Inductive CallOutcome :=
  | Resolved (result_error : option PostgrestError)
  | Rejected (ex : JsError).

(** ** Events *)

Inductive ConsoleLevel := LevelDebug | LevelError.

Inductive ConsoleArg :=
  | CText (s : string)
  | CNumber (n : option spec_float)
  | CThrown (ex : JsError)
  | CStoreError (e : PostgrestError)
  | CDiscarding (lastOp : option CrudEntry).

Inductive Event :=
  | EvGetSession
  | EvSignIn (email password : string)
  | EvRemote (call : RemoteCall)
  | EvComplete
  | EvInitialized
  | EvSessionStarted (session : Session)
  | EvConsole (level : ConsoleLevel) (args : list ConsoleArg).

#[global] Instance ConsoleLevel_eq_dec : EqDecision ConsoleLevel.
Proof. solve_decision. Defined.
#[global] Instance ConsoleArg_eq_dec : EqDecision ConsoleArg.
Proof. solve_decision. Defined.
#[global] Instance Event_eq_dec : EqDecision Event.
Proof. solve_decision. Defined.

(** A pending transaction: its operations in order, and how its
    [complete()] answers given the log so far ([None]: it resolves). *)
Record CrudTransaction := {
  crud : list CrudEntry;
  complete : list Event -> option JsError;
}.

(** ** The connector and the world it runs in *)

Record Connector := {
  config : SupabaseConfig;
  ready : bool;
  currentSession : option Session;
}.

Record World := {
  conn : Connector;
  log : list Event;
}.

Definition emit (ev : Event) (w : World) : World :=
  {| conn := conn w; log := log w ++ [ev] |}.

Definition set_currentSession (s : option Session) (w : World) : World :=
  {| conn := {| config := config (conn w); ready := ready (conn w);
                currentSession := s |};
     log := log w |}.

Definition set_ready (b : bool) (w : World) : World :=
  {| conn := {| config := config (conn w); ready := b;
                currentSession := currentSession (conn w) |};
     log := log w |}.

(** The events a call added to the log. *)
Definition new_events (before after : World) : list Event :=
  drop (length (log before)) (log after).

Definition as_remote (ev : Event) : option RemoteCall :=
  match ev with EvRemote c => Some c | _ => None end.

(** The store requests among some events, in the order issued. *)
Definition remote_calls (evs : list Event) : list RemoteCall :=
  omap as_remote evs.

Definition count_event (ev : Event) (evs : list Event) : nat :=
  length (filter (fun e => e = ev) evs).

(** ** Fatal response codes *)

(** Each pattern of the source is a literal [/^a1...an$/] without flags: a
    sequence of atoms, each a character or a dot, anchored at both ends. *)
Inductive ReAtom :=
  | ReChar (c : ascii)
  | ReDot.

Definition is_line_terminator (c : ascii) : bool :=
  Ascii.eqb c "010" || Ascii.eqb c "013".

Definition atom_matches (a : ReAtom) (c : ascii) : bool :=
  match a with
  | ReChar x => Ascii.eqb x c
  | ReDot => negb (is_line_terminator c)
  end.

(** [regex.test(s)] *)
Fixpoint regex_test (regex : list ReAtom) (s : string) : bool :=
  match regex, s with
  | [], EmptyString => true
  | a :: regex', String c s' => atom_matches a c && regex_test regex' s'
  | _, _ => false
  end.

Definition FATAL_RESPONSE_CODES : list (list ReAtom) :=
  [ [ReChar "2"; ReChar "2"; ReDot; ReDot; ReDot];
    [ReChar "2"; ReChar "3"; ReDot; ReDot; ReDot];
    [ReChar "4"; ReChar "2"; ReChar "5"; ReChar "0"; ReChar "1"] ].

(** The condition of the [catch] block:
    [typeof ex.code === "string" && FATAL_RESPONSE_CODES.some(...)]. *)
Definition is_fatal (ex : JsError) : bool :=
  match err_code ex with
  | JStr code => existsb (fun regex => regex_test regex code) FATAL_RESPONSE_CODES
  | _ => false
  end.

(** ** The methods of the connector *)

Section Connector.

(** [client.auth.getSession()], [client.auth.signInWithPassword(...)] and
    an awaited store request, each as a function of the log so far. *)
Variable getSession : list Event -> AuthResponse.
Variable signInWithPassword : list Event -> string -> string -> AuthResponse.
Variable remote : list Event -> RemoteCall -> CallOutcome.

Definition updateSession (session : option Session) (w : World) : World :=
  let w := set_currentSession session w in
  match session with
  | None => w
  | Some s => emit (EvSessionStarted s) w
  end.

Definition init (w : World) : Completion unit * World :=
  if ready (conn w) then (Normal tt, w)
  else
    let sessionResponse := getSession (log w) in
    let w := emit EvGetSession w in
    let w := updateSession (data_session sessionResponse) w in
    let w := set_ready true w in
    (Normal tt, emit EvInitialized w).

Definition login (username password : string) (w : World)
  : Completion unit * World :=
  let response := signInWithPassword (log w) username password in
  let w := emit (EvSignIn username password) w in
  match error response with
  | Some e => (Threw e, w)
  | None => (Normal tt, updateSession (data_session response) w)
  end.

(** [session.expires_at ? new Date(session.expires_at * 1000) : undefined] *)
Definition expiry_date (expires : option spec_float) : option Date :=
  match expires with
  | None => None
  | Some x =>
      if number_truthy x then Some (new_Date (number_mul x (number_of_Z 1000)))
      else None
  end.

Definition fetchCredentials (w : World) : Completion Credentials * World :=
  let response := getSession (log w) in
  let w := emit EvGetSession w in
  match data_session response, error response with
  | Some session, None =>
      let w := emit (EvConsole LevelDebug
                       [CText "session expires at";
                        CNumber (expires_at session)]) w in
      (Normal {| endpoint := powersyncUrl (config (conn w));
                 token := default "" (access_token session);
                 expiresAt := expiry_date (expires_at session) |}, w)
  | _, err =>
      (Threw (new_Error ("Could not fetch Supabase credentials: "
                         +:+ template_of_error err)), w)
  end.

(** [await] of one store request. *)
Definition await_remote (call : RemoteCall) (w : World)
  : Completion (option PostgrestError) * World :=
  let outcome := remote (log w) call in
  let w := emit (EvRemote call) w in
  match outcome with
  | Resolved result_error => (Normal result_error, w)
  | Rejected ex => (Threw ex, w)
  end.

(** The [switch (op.op)] of the loop body. *)
Definition dispatch (op : CrudEntry) (w : World)
  : Completion (option PostgrestError) * World :=
  let table := crud_table op in
  if String.eqb (crud_op op) UpdateType_PUT then
    await_remote
      (Upsert table (<["id" := JStr (crud_id op)]> (default ∅ (crud_opData op)))) w
  else if String.eqb (crud_op op) UpdateType_PATCH then
    await_remote (Update table (crud_opData op) (crud_id op)) w
  else if String.eqb (crud_op op) UpdateType_DELETE then
    await_remote (Delete table (crud_id op)) w
  else
    (Threw (new_Error ("Unsupported operation type: " +:+ crud_op op)), w).

(** One iteration of the loop, after [lastOp = op]. *)
Definition replay_one (op : CrudEntry) (w : World) : Completion unit * World :=
  match dispatch op w with
  | (Threw ex, w) => (Threw ex, w)
  | (Normal None, w) => (Normal tt, w)
  | (Normal (Some result_error), w) =>
      let w := emit (EvConsole LevelError [CStoreError result_error]) w in
      (Threw (new_Error ("Could not update Supabase. Received error: "
                         +:+ pg_message result_error)), w)
  end.

(** [for (const op of transaction.crud) { ... }], with the local
    [lastOp] threaded through: it is still set when the loop throws. *)
Fixpoint replay (ops : list CrudEntry) (lastOp : option CrudEntry) (w : World)
  : option CrudEntry * (Completion unit * World) :=
  match ops with
  | [] => (lastOp, (Normal tt, w))
  | op :: rest =>
      match replay_one op w with
      | (Normal _, w) => replay rest (Some op) w
      | (Threw ex, w) => (Some op, (Threw ex, w))
      end
  end.

(** [await transaction.complete()] *)
Definition await_complete (transaction : CrudTransaction) (w : World)
  : Completion unit * World :=
  let outcome := complete transaction (log w) in
  let w := emit EvComplete w in
  match outcome with
  | None => (Normal tt, w)
  | Some ex => (Threw ex, w)
  end.

(** The body of the [try] block. *)
Definition try_block (transaction : CrudTransaction) (w : World)
  : option CrudEntry * (Completion unit * World) :=
  match replay (crud transaction) None w with
  | (lastOp, (Normal _, w)) => (lastOp, await_complete transaction w)
  | thrown => thrown
  end.

(** The body of the [catch (ex: any)] block. *)
Definition catch_block (transaction : CrudTransaction)
    (lastOp : option CrudEntry) (ex : JsError) (w : World)
  : Completion unit * World :=
  let w := emit (EvConsole LevelDebug [CThrown ex]) w in
  if is_fatal ex then
    let w := emit (EvConsole LevelError [CDiscarding lastOp; CThrown ex]) w in
    await_complete transaction w
  else
    (Threw ex, w).

(** [next] is what [database.getNextCrudTransaction()] resolved to. *)
Definition uploadData (next : option CrudTransaction) (w : World)
  : Completion unit * World :=
  match next with
  | None => (Normal tt, w)
  | Some transaction =>
      match try_block transaction w with
      | (_, (Normal _, w)) => (Normal tt, w)
      | (lastOp, (Threw ex, w)) => catch_block transaction lastOp ex w
      end
  end.

End Connector.

(** ** Specification vocabulary *)

(** The store request that the [switch] builds for an operation; [None]
    for a kind outside the enum. *)
Definition remote_call_of (op : CrudEntry) : option RemoteCall :=
  if decide (crud_op op = UpdateType_PUT) then
    Some (Upsert (crud_table op)
            (<["id" := JStr (crud_id op)]> (default ∅ (crud_opData op))))
  else if decide (crud_op op = UpdateType_PATCH) then
    Some (Update (crud_table op) (crud_opData op) (crud_id op))
  else if decide (crud_op op = UpdateType_DELETE) then
    Some (Delete (crud_table op) (crud_id op))
  else None.

(** [grows w w' evs]: from [w] to [w'] the connector's fields are untouched
    and exactly [evs] were logged. *)
Definition grows (w w' : World) (evs : list Event) : Prop :=
  conn w' = conn w ∧ log w' = log w ++ evs.

(** A run of loop iterations that all end normally. *)
Inductive replayed (remote : list Event -> RemoteCall -> CallOutcome)
  : list CrudEntry -> World -> World -> Prop :=
  | replayed_nil w : replayed remote [] w w
  | replayed_cons op rest w w1 w2 :
      replay_one remote op w = (Normal tt, w1) ->
      replayed remote rest w1 w2 ->
      replayed remote (op :: rest) w w2.

(** ** Scenarios

    Concrete collaborators and inputs, used to run the methods. *)

Definition demo_config : SupabaseConfig :=
  {| supabaseUrl := "https://project.supabase.example";
     supabaseAnonKey := "anon-key";
     powersyncUrl := "https://sync.example" |}.

(** The connector right after its constructor. *)
Definition fresh_world : World :=
  {| conn := {| config := demo_config; ready := false; currentSession := None |};
     log := [] |}.

Definition put_milk : CrudEntry :=
  {| crud_op := "PUT"; crud_table := "todos"; crud_id := "1";
     crud_opData := Some {[ "description" := JStr "buy milk" ]} |}.

Definition patch_done : CrudEntry :=
  {| crud_op := "PATCH"; crud_table := "todos"; crud_id := "1";
     crud_opData := Some {[ "completed" := JNum 1 ]} |}.

Definition delete_two : CrudEntry :=
  {| crud_op := "DELETE"; crud_table := "todos"; crud_id := "2";
     crud_opData := None |}.

Definition truncate_todos : CrudEntry :=
  {| crud_op := "TRUNCATE"; crud_table := "todos"; crud_id := "3";
     crud_opData := None |}.

(** A transaction whose [complete()] always resolves. *)
Definition pending (ops : list CrudEntry) : CrudTransaction :=
  {| crud := ops; complete := fun _ => None |}.

Definition fk_violation : PostgrestError :=
  {| pg_message := "violates foreign key constraint"; pg_code := "23503" |}.

Definition fetch_failed : JsError :=
  {| err_name := "TypeError"; err_message := "Failed to fetch";
     err_code := JUndefined |}.

(** A store that accepts every request. *)
Definition store_ok : list Event -> RemoteCall -> CallOutcome :=
  fun _ _ => Resolved None.

(** A store that answers every delete with a foreign-key violation in its
    response and accepts everything else. *)
Definition store_fk : list Event -> RemoteCall -> CallOutcome :=
  fun _ call =>
    match call with
    | Delete _ _ => Resolved (Some fk_violation)
    | _ => Resolved None
    end.

(** A store that cannot be reached: every request rejects. *)
Definition store_offline : list Event -> RemoteCall -> CallOutcome :=
  fun _ _ => Rejected fetch_failed.

Definition session_live : Session :=
  {| access_token := Some "jwt"; expires_at := Some (number_of_Z 1700000000) |}.

Definition session_no_token : Session :=
  {| access_token := None; expires_at := None |}.

Definition session_epoch : Session :=
  {| access_token := Some "jwt"; expires_at := Some (number_of_Z 0) |}.

(** A provider whose [getSession()] always resolves to the given session. *)
Definition provider_with (s : option Session) : list Event -> AuthResponse :=
  fun _ => {| data_session := s; error := None |}.

Definition invalid_login : JsError :=
  {| err_name := "AuthApiError"; err_message := "Invalid login credentials";
     err_code := JStr "invalid_credentials" |}.

(** A provider that knows one account. *)
Definition sign_in_alice : list Event -> string -> string -> AuthResponse :=
  fun _ email password =>
    if String.eqb email "alice@example.org" && String.eqb password "secret"
    then {| data_session := Some session_live; error := None |}
    else {| data_session := None; error := Some invalid_login |}.

(** ** The constructor and the life of a connector *)

(** The three build-time variables the constructor reads from
    [import.meta.env]. *)
Record ImportMetaEnv := {
  VITE_SUPABASE_URL : string;
  VITE_POWERSYNC_URL : string;
  VITE_SUPABASE_ANON_KEY : string;
}.

(** The fields after [constructor()]: the field initialisers
    [ready = false] and [currentSession = null], then [config]. *)
Definition constructor (env : ImportMetaEnv) : Connector :=
  {| config := {| supabaseUrl := VITE_SUPABASE_URL env;
                  powersyncUrl := VITE_POWERSYNC_URL env;
                  supabaseAnonKey := VITE_SUPABASE_ANON_KEY env |};
     ready := false;
     currentSession := None |}.

(** A connector that has just been constructed and called nothing yet. *)
Definition new_connector (env : ImportMetaEnv) : World :=
  {| conn := constructor env; log := [] |}.

(** One use of the connector by its callers: the four methods of the
    backend-connector interface. *)
Inductive Call :=
  | CallInit
  | CallLogin (username password : string)
  | CallFetchCredentials
  | CallUploadData (next : option CrudTransaction).

Section Lifetime.

Variable getSession : list Event -> AuthResponse.
Variable signInWithPassword : list Event -> string -> string -> AuthResponse.
Variable remote : list Event -> RemoteCall -> CallOutcome.

(** The world after one call, whether it returned or threw. *)
Definition call (c : Call) (w : World) : World :=
  match c with
  | CallInit => (init getSession w).2
  | CallLogin username password =>
      (login signInWithPassword username password w).2
  | CallFetchCredentials => (fetchCredentials getSession w).2
  | CallUploadData next => (uploadData remote next w).2
  end.

(** The world after a sequence of calls, one after the other. *)
Definition run (calls : list Call) (w : World) : World :=
  foldl (fun w c => call c w) w calls.

End Lifetime.

Definition is_fetch_call (c : Call) : bool :=
  match c with CallFetchCredentials => true | _ => false end.

Definition is_upload_call (c : Call) : bool :=
  match c with CallUploadData _ => true | _ => false end.

(** How many of the calls are [fetchCredentials()]. *)
Definition count_fetch_calls (calls : list Call) : nat :=
  length (List.filter is_fetch_call calls).

Definition as_started (ev : Event) : option Session :=
  match ev with EvSessionStarted s => Some s | _ => None end.

(** The sessions announced to the [sessionStarted] listeners, in order. *)
Definition started_sessions (evs : list Event) : list Session :=
  omap as_started evs.

(** The events of the upload bridge: store requests, [complete()] and
    console lines. *)
Definition is_upload_event (ev : Event) : bool :=
  match ev with
  | EvRemote _ | EvComplete | EvConsole _ _ => true
  | _ => false
  end.

(** The events of the session methods: provider calls, notifications and
    console lines. *)
Definition is_session_event (ev : Event) : bool :=
  match ev with
  | EvRemote _ | EvComplete => false
  | _ => true
  end.

(** The codes of one class of Postgres responses: ["2"], the digit of
    the class, and three more characters, none a line terminator. *)
Definition class_code (digit : ascii) (code : string) : Prop :=
  ∃ c3 c4 c5,
    code = String "2" (String digit (String c3 (String c4 (String c5 EmptyString))))
    ∧ is_line_terminator c3 = false
    ∧ is_line_terminator c4 = false
    ∧ is_line_terminator c5 = false.

(** ** [init], segment by segment

    [init] suspends once, at the [await] of its line 63. What runs before
    the suspension and what runs after it are two segments, and other calls
    can run between them. Notifications go through the observer base
    class of the sync library; they are taken to return. *)

(** What an [await] hands back: the value the promise resolved to, or the
    value it rejected with. *)
Inductive Awaited (A : Type) :=
  | Resolves (a : A)
  | Rejects (ex : JsError).
Arguments Resolves {A} a.
Arguments Rejects {A} ex.

(** Where [init] stands after its first segment. *)
Inductive InitPoint :=
  | InitReturned
  | InitAwaiting.

(** The first segment: the test of [ready], and the call of
    [getSession()] whose promise is then awaited. *)
Definition init_start (w : World) : InitPoint * World :=
  if ready (conn w) then (InitReturned, w)
  else (InitAwaiting, emit EvGetSession w).

(** The second segment, entered with what the [await] hands back. A
    rejection is thrown on the spot. *)
Definition init_resume (answer : Awaited AuthResponse) (w : World)
  : Completion unit * World :=
  match answer with
  | Rejects ex => (Threw ex, w)
  | Resolves sessionResponse =>
      let w := updateSession (data_session sessionResponse) w in
      let w := set_ready true w in
      (Normal tt, emit EvInitialized w)
  end.

Definition is_init_call (c : Call) : bool :=
  match c with CallInit => true | _ => false end.

(** One thing that happens to a connector: an [init()] runs its first
    segment, a suspended [init()] runs its second, or some call runs from
    start to end. *)
Inductive InitStep :=
  | StepStart
  | StepResume (answer : Awaited AuthResponse)
  | StepCall (c : Call).

(** A connector with its suspended [init()] calls: how many are awaiting,
    and whether an [init()] ever began its fetch while another one was
    awaiting. *)
Record InitRun := {
  awaiting : nat;
  overlapped : bool;
  world : World;
}.

Section InitRuns.

Variable getSession : list Event -> AuthResponse.
Variable signInWithPassword : list Event -> string -> string -> AuthResponse.
Variable remote : list Event -> RemoteCall -> CallOutcome.

Definition init_step (step : InitStep) (r : InitRun) : InitRun :=
  match step with
  | StepStart =>
      match init_start (world r) with
      | (InitReturned, w) =>
          {| awaiting := awaiting r; overlapped := overlapped r; world := w |}
      | (InitAwaiting, w) =>
          {| awaiting := S (awaiting r);
             overlapped := overlapped r || (0 <? awaiting r);
             world := w |}
      end
  | StepResume answer =>
      match awaiting r with
      | 0 => r
      | S n =>
          {| awaiting := n; overlapped := overlapped r;
             world := (init_resume answer (world r)).2 |}
      end
  | StepCall c =>
      {| awaiting := awaiting r;
         overlapped := overlapped r
                       || (is_init_call c && negb (ready (conn (world r)))
                           && (0 <? awaiting r));
         world := call getSession signInWithPassword remote c (world r) |}
  end.

Definition init_run (steps : list InitStep) (r : InitRun) : InitRun :=
  foldl (fun r step => init_step step r) r steps.

End InitRuns.

(** A connector on which no [init()] is suspended. *)
Definition settled (w : World) : InitRun :=
  {| awaiting := 0; overlapped := false; world := w |}.

(** ** More scenarios *)

Definition demo_env : ImportMetaEnv :=
  {| VITE_SUPABASE_URL := "https://project.supabase.example";
     VITE_POWERSYNC_URL := "https://sync.example";
     VITE_SUPABASE_ANON_KEY := "anon-key" |}.

(** A connector that is ready and holds a session, with nothing logged. *)
Definition signed_in_world : World :=
  {| conn := {| config := demo_config; ready := true;
                currentSession := Some session_no_token |};
     log := [] |}.

(** A provider that is down: no session, and an error in the response. *)
Definition provider_down : list Event -> AuthResponse :=
  fun _ => {| data_session := None;
              error := Some {| err_name := "AuthRetryableFetchError";
                               err_message := "Failed to fetch";
                               err_code := JUndefined |} |}.

(** A thrown value that carries the code of a foreign-key violation. *)
Definition fk_rejection : JsError :=
  {| err_name := "PostgrestError";
     err_message := "violates foreign key constraint";
     err_code := JStr "23503" |}.

(** A store whose delete requests reject with [fk_rejection], and which
    accepts everything else. *)
Definition store_rejecting : list Event -> RemoteCall -> CallOutcome :=
  fun _ call =>
    match call with
    | Delete _ _ => Rejected fk_rejection
    | _ => Resolved None
    end.

(** A transaction whose first [complete()] rejects with [ex] and whose
    later ones resolve. *)
Definition pending_retry (ex : JsError) (ops : list CrudEntry) : CrudTransaction :=
  {| crud := ops;
     complete := fun log => if decide (EvComplete ∈ log) then None else Some ex |}.

(** ** Logs *)

Lemma grows_refl w : grows w w [].
Proof. split; [done | by rewrite app_nil_r]. Qed.

Lemma grows_emit ev w : grows w (emit ev w) [ev].
Proof. by split. Qed.

Lemma grows_trans w w1 w2 evs1 evs2 :
  grows w w1 evs1 -> grows w1 w2 evs2 -> grows w w2 (evs1 ++ evs2).
Proof.
  intros [Hc1 Hl1] [Hc2 Hl2]. split; [congruence |].
  by rewrite Hl2, Hl1, app_assoc.
Qed.

Lemma new_events_app w w' evs :
  log w' = log w ++ evs -> new_events w w' = evs.
Proof. unfold new_events. intros ->. apply drop_app_length. Qed.

Lemma grows_new_events w w' evs : grows w w' evs -> new_events w w' = evs.
Proof. intros [_ H]. by apply new_events_app. Qed.

Lemma remote_calls_app evs1 evs2 :
  remote_calls (evs1 ++ evs2) = remote_calls evs1 ++ remote_calls evs2.
Proof. apply omap_app. Qed.

Lemma remote_calls_EvRemote calls : remote_calls (EvRemote <$> calls) = calls.
Proof.
  induction calls as [|c calls IH]; [done |].
  cbn. unfold remote_calls in IH. by rewrite IH.
Qed.

(** Closes a goal [ev ∉ evs] for a log spelled out up to appended parts
    that are known not to hold [ev]. *)
Ltac not_logged :=
  rewrite ?elem_of_app, ?elem_of_cons, ?elem_of_nil; intuition discriminate.

(** ** Classification *)

Lemma is_fatal_new_Error message : is_fatal (new_Error message) = false.
Proof. reflexivity. Qed.

Lemma is_fatal_string ex :
  is_fatal ex = true ->
  ∃ code, err_code ex = JStr code
          ∧ existsb (fun regex => regex_test regex code) FATAL_RESPONSE_CODES = true.
Proof.
  unfold is_fatal. destruct (err_code ex) as [| | |n|code]; try done.
  intros H. by exists code.
Qed.

Lemma is_fatal_no_string_code ex :
  (∀ code, err_code ex ≠ JStr code) -> is_fatal ex = false.
Proof.
  intros Hno. unfold is_fatal.
  destruct (err_code ex) as [| | |n|code] eqn:Hc; try done.
  by destruct (Hno code).
Qed.

(** A code passes a five-atom pattern only if it has five characters. *)
Lemma fatal_code_length code :
  existsb (fun regex => regex_test regex code) FATAL_RESPONSE_CODES = true ->
  String.length code = 5.
Proof.
  destruct code as [|c1 [|c2 [|c3 [|c4 [|c5 [|c6 s]]]]]]; cbn;
    rewrite ?andb_false_r; cbn; try done.
Qed.

(** ** The loop *)

Section Replay.

Variable remote : list Event -> RemoteCall -> CallOutcome.

Lemma await_remote_world call w :
  (await_remote remote call w).2 = emit (EvRemote call) w.
Proof. unfold await_remote. by destruct (remote (log w) call). Qed.

(** The [switch] issues the request of [remote_call_of], or throws
    without touching the store. *)
Lemma dispatch_remote_call_of op w :
  dispatch remote op w =
    match remote_call_of op with
    | Some call => await_remote remote call w
    | None =>
        (Threw (new_Error ("Unsupported operation type: " +:+ crud_op op)), w)
    end.
Proof.
  unfold dispatch, remote_call_of.
  repeat case_decide.
  all: repeat match goal with
       | H : _ = _ |- _ => apply String.eqb_eq in H; rewrite H
       | H : _ ≠ _ |- _ => apply String.eqb_neq in H; rewrite H
       end; done.
Qed.

(** One iteration logs the request it issued, if any, and then at most a
    console line. *)
Lemma replay_one_grows op w :
  ∃ evs, grows w (replay_one remote op w).2 evs
         ∧ remote_calls evs = option_list (remote_call_of op)
         ∧ EvComplete ∉ evs.
Proof.
  unfold replay_one. rewrite dispatch_remote_call_of.
  destruct (remote_call_of op) as [call|]; cbn.
  - unfold await_remote.
    destruct (remote (log w) call) as [[e|]|ex]; cbn.
    + exists [EvRemote call; EvConsole LevelError [CStoreError e]].
      split; [| split; [done | not_logged]].
      apply (grows_trans _ (emit (EvRemote call) w) _ [_] [_]); apply grows_emit.
    + exists [EvRemote call].
      split; [apply grows_emit | split; [done | not_logged]].
    + exists [EvRemote call].
      split; [apply grows_emit | split; [done | not_logged]].
  - exists []. split; [apply grows_refl |]. split; [done | not_logged].
Qed.

Lemma replay_one_normal op w w1 :
  replay_one remote op w = (Normal tt, w1) ->
  ∃ call, remote_call_of op = Some call ∧ grows w w1 [EvRemote call].
Proof.
  unfold replay_one. rewrite dispatch_remote_call_of.
  destruct (remote_call_of op) as [call|]; [| done].
  unfold await_remote.
  destruct (remote (log w) call) as [[e|]|ex]; cbn; try done.
  intros [= <-]. exists call. split; [done | apply grows_emit].
Qed.

(** A run of successful iterations logs one request per operation, in
    the order of the operations, and nothing else. *)
Lemma replayed_grows ops w w1 :
  replayed remote ops w w1 ->
  ∃ calls, Forall2 (fun op call => remote_call_of op = Some call) ops calls
           ∧ grows w w1 (EvRemote <$> calls).
Proof.
  induction 1 as [w | op rest w w1 w2 Hone _ (calls & Hall & Hg)].
  - exists []. split; [constructor | apply grows_refl].
  - apply replay_one_normal in Hone as (call & Hcall & Hg1).
    exists (call :: calls). split; [by constructor |].
    apply (grows_trans _ _ _ _ _ Hg1 Hg).
Qed.

(** The loop stops at the first iteration that throws: what follows it
    in the transaction plays no part. *)
Lemma replay_first_failure pre op post lastOp w w1 w2 ex :
  replayed remote pre w w1 ->
  replay_one remote op w1 = (Threw ex, w2) ->
  replay remote (pre ++ op :: post) lastOp w = (Some op, (Threw ex, w2)).
Proof.
  intros Hpre Hop. revert lastOp.
  induction Hpre as [w | p rest w w1 w1' Hone _ IH]; intros lastOp; cbn.
  - by rewrite Hop.
  - rewrite Hone. apply IH, Hop.
Qed.

(** The loop runs to its end exactly when every iteration ends normally. *)
Lemma replay_all_normal ops lastOp w w1 :
  replayed remote ops w w1 ->
  replay remote ops lastOp w = (from_option Some lastOp (last ops), (Normal tt, w1)).
Proof.
  intros Hops. revert lastOp.
  induction Hops as [w | p rest w w1 w1' Hone _ IH]; intros lastOp; cbn; [done |].
  rewrite Hone, IH, last_cons. by destruct (last rest).
Qed.

Lemma replay_normal_replayed ops lastOp lastOp' w w1 :
  replay remote ops lastOp w = (lastOp', (Normal tt, w1)) ->
  replayed remote ops w w1.
Proof.
  revert lastOp w. induction ops as [|op rest IH]; intros lastOp w; cbn.
  - intros [= _ <-]. constructor.
  - destruct (replay_one remote op w) as [[[]|ex] w'] eqn:Hone; [| done].
    intros H. econstructor; [exact Hone | exact (IH _ _ H)].
Qed.

(** Whatever the loop does, it never acknowledges the transaction and
    leaves the connector's fields alone. *)
Lemma replay_grows ops lastOp w :
  ∃ evs, grows w (replay remote ops lastOp w).2.2 evs ∧ EvComplete ∉ evs.
Proof.
  revert lastOp w. induction ops as [|op rest IH]; intros lastOp w; cbn.
  - exists []. split; [apply grows_refl | not_logged].
  - destruct (replay_one_grows op w) as (evs1 & Hg1 & _ & Hn1).
    destruct (replay_one remote op w) as [[[]|ex] w'] eqn:Hone; cbn in *.
    + destruct (IH (Some op) w') as (evs2 & Hg2 & Hn2).
      exists (evs1 ++ evs2). split; [by eapply grows_trans | not_logged].
    + by exists evs1.
Qed.

End Replay.

(** ** The upload bridge *)

Section Upload.

Variable remote : list Event -> RemoteCall -> CallOutcome.

Lemma await_complete_world transaction w :
  (await_complete transaction w).2 = emit EvComplete w.
Proof. unfold await_complete. by destruct (complete transaction (log w)). Qed.

(** The [catch] block talks to the console and to the queue only. *)
Lemma catch_block_grows transaction lastOp ex w :
  ∃ evs, grows w (catch_block transaction lastOp ex w).2 evs
         ∧ remote_calls evs = [].
Proof.
  unfold catch_block. destruct (is_fatal ex).
  - rewrite await_complete_world.
    exists [EvConsole LevelDebug [CThrown ex];
            EvConsole LevelError [CDiscarding lastOp; CThrown ex];
            EvComplete].
    split; [| done].
    apply (grows_trans _ (emit (EvConsole LevelDebug [CThrown ex]) w) _ [_] [_; _]);
      [apply grows_emit |].
    apply (grows_trans _ (emit (EvConsole LevelError [CDiscarding lastOp; CThrown ex])
                            (emit (EvConsole LevelDebug [CThrown ex]) w)) _ [_] [_]);
      apply grows_emit.
  - exists [EvConsole LevelDebug [CThrown ex]]. split; [apply grows_emit | done].
Qed.

(** A throw out of the loop reaches the [catch] block with the world the
    loop left behind. *)
Lemma uploadData_loop_threw transaction lastOp ex w w1 :
  replay remote (crud transaction) None w = (lastOp, (Threw ex, w1)) ->
  uploadData remote (Some transaction) w = catch_block transaction lastOp ex w1.
Proof. intros H. unfold uploadData, try_block. by rewrite H. Qed.

(** An error that the store reports in its response is rethrown as a
    fresh [Error] without a [code], whatever code the store gave. *)
Lemma replay_one_store_error op call e w :
  remote_call_of op = Some call ->
  remote (log w) call = Resolved (Some e) ->
  replay_one remote op w =
    (Threw (new_Error ("Could not update Supabase. Received error: "
                       +:+ pg_message e)),
     emit (EvConsole LevelError [CStoreError e]) (emit (EvRemote call) w)).
Proof.
  intros Hcall Hres. unfold replay_one.
  rewrite dispatch_remote_call_of, Hcall. unfold await_remote. by rewrite Hres.
Qed.

(** A request that rejects throws the rejection itself. *)
Lemma replay_one_rejected op call ex w :
  remote_call_of op = Some call ->
  remote (log w) call = Rejected ex ->
  replay_one remote op w = (Threw ex, emit (EvRemote call) w).
Proof.
  intros Hcall Hres. unfold replay_one.
  rewrite dispatch_remote_call_of, Hcall. unfold await_remote. by rewrite Hres.
Qed.

(** The discard branch is taken when a request rejects with a fatal code:
    then the transaction is acknowledged. *)
Lemma uploadData_rejected_fatal transaction pre op post call ex w w1 :
  crud transaction = pre ++ op :: post ->
  replayed remote pre w w1 ->
  remote_call_of op = Some call ->
  remote (log w1) call = Rejected ex ->
  is_fatal ex = true ->
  uploadData remote (Some transaction) w =
    await_complete transaction
      (emit (EvConsole LevelError [CDiscarding (Some op); CThrown ex])
         (emit (EvConsole LevelDebug [CThrown ex])
            (emit (EvRemote call) w1))).
Proof.
  intros Hcrud Hpre Hcall Hrej Hfatal.
  rewrite (uploadData_loop_threw _ (Some op) ex w (emit (EvRemote call) w1)).
  - unfold catch_block. by rewrite Hfatal.
  - rewrite Hcrud. apply (replay_first_failure _ _ _ _ _ _ w1); [done |].
    by apply replay_one_rejected.
Qed.

End Upload.

(** ** The upload bridge: results *)

(** C9. When the queue has no pending transaction, [uploadData] returns
    normally at once: the world is unchanged, so no store request and no
    acknowledgment is issued, and nothing is thrown. *)
Theorem uploadData_nothing_pending
    (remote : list Event -> RemoteCall -> CallOutcome) (w : World) :
  uploadData remote None w = (Normal tt, w)
  ∧ new_events w (uploadData remote None w).2 = [].
Proof.
  split; [done |]. cbn. apply new_events_app. by rewrite app_nil_r.
Qed.

(** C8. For a transaction without operations, [uploadData] calls
    [complete()] first and issues no store request; when [complete()]
    resolves, that call is all it does and it returns normally. *)
Theorem uploadData_empty_transaction
    (remote : list Event -> RemoteCall -> CallOutcome)
    (transaction : CrudTransaction) (w : World) :
  crud transaction = [] ->
  ∃ rest,
    new_events w (uploadData remote (Some transaction) w).2 = EvComplete :: rest
    ∧ remote_calls (EvComplete :: rest) = []
    ∧ (complete transaction (log w) = None ->
       uploadData remote (Some transaction) w = (Normal tt, emit EvComplete w)).
Proof.
  intros Hcrud. unfold uploadData, try_block. rewrite Hcrud. cbn.
  unfold await_complete.
  destruct (complete transaction (log w)) as [ex|] eqn:Hc.
  - destruct (catch_block_grows transaction None ex (emit EvComplete w))
      as (evs & Hg & Hr).
    exists evs. split; [| split; [exact Hr | done]].
    apply grows_new_events.
    apply (grows_trans _ _ _ [_] _ (grows_emit EvComplete w) Hg).
  - exists []. split; [| done].
    apply grows_new_events, grows_emit.
Qed.

Lemma uploadData_empty_transaction_witness :
  crud (pending []) = []
  ∧ ∃ rest,
      new_events fresh_world
        (uploadData store_ok (Some (pending [])) fresh_world).2 = EvComplete :: rest
      ∧ remote_calls (EvComplete :: rest) = []
      ∧ (complete (pending []) (log fresh_world) = None ->
         uploadData store_ok (Some (pending [])) fresh_world
         = (Normal tt, emit EvComplete fresh_world)).
Proof.
  split; [reflexivity |].
  apply (uploadData_empty_transaction store_ok (pending []) fresh_world).
  reflexivity.
Defined.

(** C2. When the loop over the operations throws [ex], and the code of
    [ex] passes no fatal pattern (in particular when [ex] has no
    string-typed code at all), [uploadData] throws that same [ex] and
    [complete()] is not called. *)
Theorem uploadData_transient_rethrown
    (remote : list Event -> RemoteCall -> CallOutcome)
    (transaction : CrudTransaction) (lastOp : option CrudEntry)
    (ex : JsError) (w w1 : World) :
  replay remote (crud transaction) None w = (lastOp, (Threw ex, w1)) ->
  (∀ code, err_code ex = JStr code ->
     existsb (fun regex => regex_test regex code) FATAL_RESPONSE_CODES = false) ->
  ∃ w', uploadData remote (Some transaction) w = (Threw ex, w')
        ∧ EvComplete ∉ new_events w w'.
Proof.
  intros Hloop Hcode.
  assert (is_fatal ex = false) as Hfatal.
  { destruct (is_fatal ex) eqn:Hf; [| done].
    apply is_fatal_string in Hf as (code & Hc & Hm).
    by rewrite (Hcode code Hc) in Hm. }
  rewrite (uploadData_loop_threw remote _ _ _ _ _ Hloop).
  unfold catch_block. rewrite Hfatal.
  eexists. split; [done |].
  destruct (replay_grows remote (crud transaction) None w) as (evs & Hg & Hn).
  rewrite Hloop in Hg. cbn in Hg.
  rewrite (grows_new_events w _ (evs ++ [EvConsole LevelDebug [CThrown ex]])).
  - not_logged.
  - apply (grows_trans _ _ _ _ _ Hg), grows_emit.
Qed.

Lemma uploadData_transient_rethrown_witness :
  ∃ w', uploadData store_offline (Some (pending [put_milk; patch_done])) fresh_world
        = (Threw fetch_failed, w')
        ∧ EvComplete ∉ new_events fresh_world w'.
Proof.
  apply (uploadData_transient_rethrown store_offline
           (pending [put_milk; patch_done]) (Some put_milk) fetch_failed fresh_world
           (emit (EvRemote (Upsert "todos"
                    (<["id" := JStr "1"]> {[ "description" := JStr "buy milk" ]})))
              fresh_world)).
  - reflexivity.
  - intros code Hcode. discriminate Hcode.
Defined.

(** C3. When the operations before operation [op] all succeed and [op]
    is the first to fail, the store requests that [uploadData] issues are
    exactly: one for each earlier operation, in the order of the
    transaction, then the request of [op] itself if its kind has one.
    Nothing is requested for the operations after [op]. *)
Theorem uploadData_first_failure
    (remote : list Event -> RemoteCall -> CallOutcome)
    (transaction : CrudTransaction) (pre post : list CrudEntry)
    (op : CrudEntry) (ex : JsError) (w w1 w2 : World) :
  crud transaction = pre ++ op :: post ->
  replayed remote pre w w1 ->
  replay_one remote op w1 = (Threw ex, w2) ->
  ∃ calls,
    Forall2 (fun p call => remote_call_of p = Some call) pre calls
    ∧ remote_calls (new_events w (uploadData remote (Some transaction) w).2)
      = calls ++ option_list (remote_call_of op).
Proof.
  intros Hcrud Hpre Hop.
  destruct (replayed_grows remote pre w w1 Hpre) as (calls & Hall & Hg1).
  exists calls. split; [exact Hall |].
  rewrite (uploadData_loop_threw remote transaction (Some op) ex w w2).
  - destruct (replay_one_grows remote op w1) as (evs2 & Hg2 & Hr2 & _).
    rewrite Hop in Hg2. cbn in Hg2.
    destruct (catch_block_grows transaction (Some op) ex w2) as (evs3 & Hg3 & Hr3).
    rewrite (grows_new_events w _ ((EvRemote <$> calls) ++ evs2 ++ evs3)).
    + by rewrite !remote_calls_app, remote_calls_EvRemote, Hr2, Hr3, app_nil_r.
    + apply (grows_trans _ _ _ _ _ Hg1), (grows_trans _ _ _ _ _ Hg2), Hg3.
  - rewrite Hcrud. by apply (replay_first_failure remote _ _ _ _ _ w1).
Qed.

Lemma uploadData_first_failure_witness :
  crud (pending [put_milk; delete_two; patch_done])
  = [put_milk] ++ delete_two :: [patch_done]
  ∧ ∃ calls,
      Forall2 (fun p call => remote_call_of p = Some call) [put_milk] calls
      ∧ remote_calls
          (new_events fresh_world
             (uploadData store_fk
                (Some (pending [put_milk; delete_two; patch_done])) fresh_world).2)
        = calls ++ option_list (remote_call_of delete_two).
Proof.
  split; [reflexivity |].
  eapply (uploadData_first_failure store_fk
            (pending [put_milk; delete_two; patch_done])
            [put_milk] [patch_done] delete_two).
  - reflexivity.
  - eapply replayed_cons; [reflexivity | apply replayed_nil].
  - reflexivity.
Defined.

(** The request built for a put carries the operation's identifier under
    ["id"], whatever the payload held there, and the payload elsewhere. *)
Lemma upsert_record_merge (id : string) (opData : option (gmap string jsval)) :
  let record := <["id" := JStr id]> (default ∅ opData) in
  record !! "id" = Some (JStr id)
  ∧ ∀ column, column ≠ "id" -> record !! column = default ∅ opData !! column.
Proof.
  split; [apply lookup_insert_eq |].
  intros column Hne. by apply lookup_insert_ne.
Qed.

(** C4. The [switch] on the kind of an operation: a put awaits an upsert,
    on the operation's table, of the payload with the identifier stored
    under ["id"] (overriding an ["id"] of the payload); a patch awaits an
    update with the payload on the row whose id is the identifier; a delete
    awaits a delete of that row. For any other kind, reached after the
    operations before it succeeded, [uploadData] throws an [Error] whose
    message names the kind, having added nothing to the log but the
    console line of the [catch] block: no request for this operation or a
    later one, and no call of [complete()]. *)
Theorem dispatch_by_kind
    (remote : list Event -> RemoteCall -> CallOutcome)
    (op : CrudEntry) (w : World) :
  (crud_op op = UpdateType_PUT ->
     ∃ record,
       dispatch remote op w = await_remote remote (Upsert (crud_table op) record) w
       ∧ record !! "id" = Some (JStr (crud_id op))
       ∧ ∀ column, column ≠ "id" ->
           record !! column = default ∅ (crud_opData op) !! column)
  ∧ (crud_op op = UpdateType_PATCH ->
     dispatch remote op w
     = await_remote remote (Update (crud_table op) (crud_opData op) (crud_id op)) w)
  ∧ (crud_op op = UpdateType_DELETE ->
     dispatch remote op w
     = await_remote remote (Delete (crud_table op) (crud_id op)) w)
  ∧ (crud_op op ≠ UpdateType_PUT ->
     crud_op op ≠ UpdateType_PATCH ->
     crud_op op ≠ UpdateType_DELETE ->
     ∀ (transaction : CrudTransaction) (pre post : list CrudEntry) (w0 : World),
       crud transaction = pre ++ op :: post ->
       replayed remote pre w0 w ->
       let unsupported :=
         new_Error ("Unsupported operation type: " +:+ crud_op op) in
       let w' := emit (EvConsole LevelDebug [CThrown unsupported]) w in
       uploadData remote (Some transaction) w0 = (Threw unsupported, w')
       ∧ EvComplete ∉ new_events w0 w').
Proof.
  split; [| split; [| split]].
  1-3: rewrite dispatch_remote_call_of; unfold remote_call_of.
  - intros Hput. rewrite decide_True by done.
    eexists. split; [done |]. apply upsert_record_merge.
  - intros Hpatch. rewrite decide_False by (by rewrite Hpatch).
    by rewrite decide_True.
  - intros Hdelete. rewrite !decide_False by (by rewrite Hdelete).
    by rewrite decide_True.
  - intros Hput Hpatch Hdelete transaction pre post w0 Hcrud Hpre unsupported w'.
    assert (replay_one remote op w = (Threw unsupported, w)) as Hop.
    { unfold replay_one. rewrite dispatch_remote_call_of. unfold remote_call_of.
      by rewrite !decide_False. }
    split.
    + rewrite (uploadData_loop_threw remote transaction (Some op) unsupported w0 w).
      * unfold catch_block. subst unsupported. by rewrite is_fatal_new_Error.
      * rewrite Hcrud. by apply (replay_first_failure remote _ _ _ _ _ w).
    + destruct (replayed_grows remote pre w0 w Hpre) as (calls & _ & Hg).
      rewrite (grows_new_events w0 w'
                 ((EvRemote <$> calls) ++ [EvConsole LevelDebug [CThrown unsupported]])).
      * rewrite elem_of_app, list_elem_of_fmap, elem_of_cons, elem_of_nil.
        intros [(call & Heq & _) | [Heq | []]]; discriminate Heq.
      * apply (grows_trans _ _ _ _ _ Hg), grows_emit.
Qed.

Lemma dispatch_by_kind_witness :
  (∃ record,
     dispatch store_ok put_milk fresh_world
     = await_remote store_ok (Upsert "todos" record) fresh_world
     ∧ record !! "id" = Some (JStr "1")
     ∧ ∀ column, column ≠ "id" ->
         record !! column = default ∅ (crud_opData put_milk) !! column)
  ∧ dispatch store_ok patch_done fresh_world
    = await_remote store_ok
        (Update "todos" (Some {[ "completed" := JNum 1 ]}) "1") fresh_world
  ∧ dispatch store_ok delete_two fresh_world
    = await_remote store_ok (Delete "todos" "2") fresh_world
  ∧ (let after_put :=
       emit (EvRemote (Upsert "todos"
               (<["id" := JStr "1"]> {[ "description" := JStr "buy milk" ]})))
         fresh_world in
     let unsupported := new_Error "Unsupported operation type: TRUNCATE" in
     let w' := emit (EvConsole LevelDebug [CThrown unsupported]) after_put in
     uploadData store_ok
       (Some (pending [put_milk; truncate_todos; patch_done])) fresh_world
     = (Threw unsupported, w')
     ∧ EvComplete ∉ new_events fresh_world w').
Proof.
  split; [| split; [| split]].
  - apply (proj1 (dispatch_by_kind store_ok put_milk fresh_world)).
    reflexivity.
  - apply (proj1 (proj2 (dispatch_by_kind store_ok patch_done fresh_world))).
    reflexivity.
  - apply (proj1 (proj2 (proj2 (dispatch_by_kind store_ok delete_two fresh_world)))).
    reflexivity.
  - intros after_put.
    apply (proj2 (proj2 (proj2 (dispatch_by_kind store_ok truncate_todos after_put)))
             ltac:(discriminate) ltac:(discriminate) ltac:(discriminate)
             (pending [put_milk; truncate_todos; patch_done])
             [put_milk] [patch_done] fresh_world).
    + reflexivity.
    + eapply replayed_cons; [reflexivity | apply replayed_nil].
Defined.

(** When every operation succeeds and [complete()] resolves, the requests
    are followed by the acknowledgment and [uploadData] returns normally. *)
Lemma uploadData_all_succeed
    (remote : list Event -> RemoteCall -> CallOutcome)
    (transaction : CrudTransaction) (w w1 : World) :
  replayed remote (crud transaction) w w1 ->
  complete transaction (log w1) = None ->
  uploadData remote (Some transaction) w = (Normal tt, emit EvComplete w1).
Proof.
  intros Hall Hc. unfold uploadData, try_block.
  rewrite (replay_all_normal remote _ None w w1 Hall).
  unfold await_complete. by rewrite Hc.
Qed.

(** The spec's example of two operations that both succeed. *)
Example uploadData_put_then_patch :
  uploadData store_ok (Some (pending [put_milk; patch_done])) fresh_world
  = (Normal tt,
     {| conn := conn fresh_world;
        log := [EvRemote (Upsert "todos"
                  {[ "description" := JStr "buy milk"; "id" := JStr "1" ]});
                EvRemote (Update "todos" (Some {[ "completed" := JNum 1 ]}) "1");
                EvComplete] |}).
Proof. reflexivity. Qed.

(** An error that the store reports in its response never takes the
    discard branch: the [Error] thrown for it has no [code], so the
    [catch] block rethrows it, whatever the code of the response was. *)
Lemma uploadData_store_error
    (remote : list Event -> RemoteCall -> CallOutcome)
    (transaction : CrudTransaction) (pre post : list CrudEntry)
    (op : CrudEntry) (call : RemoteCall) (e : PostgrestError) (w w1 : World) :
  crud transaction = pre ++ op :: post ->
  replayed remote pre w w1 ->
  remote_call_of op = Some call ->
  remote (log w1) call = Resolved (Some e) ->
  let ex := new_Error ("Could not update Supabase. Received error: "
                       +:+ pg_message e) in
  uploadData remote (Some transaction) w
  = (Threw ex,
     emit (EvConsole LevelDebug [CThrown ex])
       (emit (EvConsole LevelError [CStoreError e]) (emit (EvRemote call) w1))).
Proof.
  intros Hcrud Hpre Hcall Hres ex.
  rewrite (uploadData_loop_threw remote transaction (Some op) ex w
             (emit (EvConsole LevelError [CStoreError e]) (emit (EvRemote call) w1))).
  - unfold catch_block. subst ex. by rewrite is_fatal_new_Error.
  - rewrite Hcrud. apply (replay_first_failure remote _ _ _ _ _ w1); [done |].
    by apply replay_one_store_error.
Qed.

(** C1. The spec's example, run on the code: the store answers the delete
    of row 2 with code [23503], which the second fatal pattern accepts; yet
    [uploadData] throws, and [complete()] is never called. The log shows
    the request, the console line for the response and the console line
    of the [catch] block, and nothing else. *)
Theorem uploadData_fk_violation_rethrown :
  existsb (fun regex => regex_test regex (pg_code fk_violation))
    FATAL_RESPONSE_CODES = true
  ∧ let ex := new_Error
        "Could not update Supabase. Received error: violates foreign key constraint" in
    uploadData store_fk (Some (pending [delete_two])) fresh_world
    = (Threw ex,
       {| conn := conn fresh_world;
          log := [EvRemote (Delete "todos" "2");
                  EvConsole LevelError [CStoreError fk_violation];
                  EvConsole LevelDebug [CThrown ex]] |})
    ∧ EvComplete ∉ [EvRemote (Delete "todos" "2");
                    EvConsole LevelError [CStoreError fk_violation];
                    EvConsole LevelDebug [CThrown ex]].
Proof.
  split; [reflexivity |]. split; [reflexivity |]. not_logged.
Qed.

(** ** Sessions and credentials: results *)

Section Sessions.

Variable getSession : list Event -> AuthResponse.

(** The first [init()] of a connector: one fetch, the session stored
    (and announced if there is one), the flag set, one notification. *)
Lemma init_not_ready w :
  ready (conn w) = false ->
  let fetched := data_session (getSession (log w)) in
  ∃ w1, init getSession w = (Normal tt, w1)
        ∧ conn w1 = {| config := config (conn w); ready := true;
                       currentSession := fetched |}
        ∧ log w1 = log w ++ [EvGetSession]
                     ++ option_list (EvSessionStarted <$> fetched)
                     ++ [EvInitialized].
Proof.
  intros Hready fetched. unfold init. rewrite Hready.
  eexists. split; [done |]. subst fetched.
  destruct (data_session (getSession (log w))) as [s|]; cbn.
  - split; [done |]. by rewrite <- !app_assoc.
  - split; [done |]. by rewrite <- !app_assoc.
Qed.

Lemma init_ready w : ready (conn w) = true -> init getSession w = (Normal tt, w).
Proof. intros Hready. unfold init. by rewrite Hready. Qed.

Lemma fetchCredentials_grows w :
  ∃ evs, grows w (fetchCredentials getSession w).2 evs
         ∧ (evs = [EvGetSession]
            ∨ ∃ n, evs = [EvGetSession;
                          EvConsole LevelDebug
                            [CText "session expires at"; CNumber n]]).
Proof.
  unfold fetchCredentials.
  destruct (data_session (getSession (log w))) as [s|],
           (error (getSession (log w))) as [e|]; cbn.
  2: { eexists. split; [| right; by eexists].
       apply (grows_trans _ (emit EvGetSession w) _ [_] [_]); apply grows_emit. }
  all: exists [EvGetSession]; split; [apply grows_emit | by left].
Qed.

End Sessions.

(** C6. [init()] on a connector that is ready returns at once and leaves
    the world as it was (no fetch). On a connector that is not ready, two
    calls in a row both return normally; the second changes nothing, so
    over the two calls the session is fetched once, the fetched session is
    what ends up stored, and [initialized] is announced once. *)
Theorem init_idempotent (getSession : list Event -> AuthResponse) (w : World) :
  (ready (conn w) = true -> init getSession w = (Normal tt, w))
  ∧ (ready (conn w) = false ->
     ∃ w1 w2,
       init getSession w = (Normal tt, w1)
       ∧ init getSession w1 = (Normal tt, w2)
       ∧ w2 = w1
       ∧ currentSession (conn w2) = data_session (getSession (log w))
       ∧ count_event EvGetSession (new_events w w2) = 1
       ∧ count_event EvInitialized (new_events w w2) = 1).
Proof.
  split; [apply init_ready |].
  intros Hready.
  destruct (init_not_ready getSession w Hready) as (w1 & Hinit & Hconn & Hlog).
  exists w1, w1. split; [exact Hinit |].
  split; [apply init_ready; by rewrite Hconn |].
  split; [done |]. split; [by rewrite Hconn |].
  rewrite (new_events_app _ _ _ Hlog).
  by destruct (data_session (getSession (log w))).
Qed.

Lemma init_idempotent_witness :
  ready (conn fresh_world) = false
  ∧ ready (conn (init (provider_with (Some session_live)) fresh_world).2) = true
  ∧ (∃ w1 w2,
       init (provider_with (Some session_live)) fresh_world = (Normal tt, w1)
       ∧ init (provider_with (Some session_live)) w1 = (Normal tt, w2)
       ∧ w2 = w1
       ∧ currentSession (conn w2) = Some session_live
       ∧ count_event EvGetSession (new_events fresh_world w2) = 1
       ∧ count_event EvInitialized (new_events fresh_world w2) = 1)
  ∧ init (provider_with None)
      (init (provider_with (Some session_live)) fresh_world).2
    = (Normal tt, (init (provider_with (Some session_live)) fresh_world).2).
Proof.
  split; [reflexivity |]. split; [reflexivity |]. split.
  - apply (proj2 (init_idempotent (provider_with (Some session_live)) fresh_world)).
    reflexivity.
  - apply (proj1 (init_idempotent (provider_with None)
                    (init (provider_with (Some session_live)) fresh_world).2)).
    reflexivity.
Defined.

(** C7. [login]: when the provider's response carries an error, that very
    error is thrown, the connector's fields are as before, and nothing but
    the sign-in itself was logged. When it carries none, [login] returns
    normally with the response's session stored as the current session,
    and if there is a session, [sessionStarted] is announced with it right
    after the sign-in. *)
Theorem login_outcome
    (signInWithPassword : list Event -> string -> string -> AuthResponse)
    (username password : string) (w : World) :
  let response := signInWithPassword (log w) username password in
  (∀ e, error response = Some e ->
     ∃ w', login signInWithPassword username password w = (Threw e, w')
           ∧ conn w' = conn w
           ∧ new_events w w' = [EvSignIn username password])
  ∧ (error response = None ->
     ∃ w', login signInWithPassword username password w = (Normal tt, w')
           ∧ currentSession (conn w') = data_session response
           ∧ ∀ session, data_session response = Some session ->
               new_events w w'
               = [EvSignIn username password; EvSessionStarted session]).
Proof.
  intros response. unfold login. fold response. split.
  - intros e ->. eexists. split; [done |]. split; [done |].
    apply grows_new_events, grows_emit.
  - intros ->. eexists. split; [done |].
    destruct (data_session response) as [s|]; cbn.
    + split; [done |]. intros session [= <-].
      apply new_events_app. cbn. by rewrite <- app_assoc.
    + split; [done |]. intros session Hs. discriminate Hs.
Qed.

Lemma login_outcome_witness :
  (∃ w', login sign_in_alice "alice@example.org" "guess" fresh_world
         = (Threw invalid_login, w')
         ∧ conn w' = conn fresh_world
         ∧ new_events fresh_world w' = [EvSignIn "alice@example.org" "guess"])
  ∧ (∃ w', login sign_in_alice "alice@example.org" "secret" fresh_world
           = (Normal tt, w')
           ∧ currentSession (conn w') = Some session_live
           ∧ ∀ session, Some session_live = Some session ->
               new_events fresh_world w'
               = [EvSignIn "alice@example.org" "secret"; EvSessionStarted session]).
Proof.
  split.
  - apply (proj1 (login_outcome sign_in_alice "alice@example.org" "guess" fresh_world)).
    reflexivity.
  - apply (proj2 (login_outcome sign_in_alice "alice@example.org" "secret" fresh_world)).
    reflexivity.
Defined.

(** C10. [fetchCredentials] only reads: whether it returns or throws, the
    connector's fields ([ready] and [currentSession] among them) are what
    they were, and neither [initialized] nor [sessionStarted] is among the
    events it logged. *)
Theorem fetchCredentials_frame (getSession : list Event -> AuthResponse) (w : World) :
  let w' := (fetchCredentials getSession w).2 in
  conn w' = conn w
  ∧ ready (conn w') = ready (conn w)
  ∧ currentSession (conn w') = currentSession (conn w)
  ∧ (EvInitialized ∉ new_events w w')
  ∧ (∀ session, EvSessionStarted session ∉ new_events w w').
Proof.
  intros w'. subst w'.
  destruct (fetchCredentials_grows getSession w) as (evs & Hg & Hevs).
  rewrite (grows_new_events _ _ _ Hg). destruct Hg as [Hconn _].
  rewrite Hconn. repeat split.
  - destruct Hevs as [-> | (n & ->)]; not_logged.
  - intros session. destruct Hevs as [-> | (n & ->)]; not_logged.
Qed.

(** C5, as the code has it. [fetchCredentials] throws when the provider's
    response has no session or carries an error. Otherwise it returns
    credentials whose endpoint is the configured sync URL, whose token is
    the session's access token, or the empty string when the session has
    none, and whose expiry is [new Date(expires_at * 1000)] when the
    session's [expires_at] is present and truthy, that is neither a zero
    nor [NaN], and is absent when [expires_at] is absent, a zero or
    [NaN]. The date is an Invalid Date when the product is not finite or
    beyond 8.64e15 ms. *)
Theorem fetchCredentials_outcome (getSession : list Event -> AuthResponse) (w : World) :
  let response := getSession (log w) in
  let result := (fetchCredentials getSession w).1 in
  (data_session response = None ∨ is_Some (error response) ->
     result = Threw (new_Error ("Could not fetch Supabase credentials: "
                                +:+ template_of_error (error response))))
  ∧ (∀ session,
       data_session response = Some session ->
       error response = None ->
       ∃ credentials,
         result = Normal credentials
         ∧ endpoint credentials = powersyncUrl (config (conn w))
         ∧ (∀ t, access_token session = Some t -> token credentials = t)
         ∧ (access_token session = None -> token credentials = "")
         ∧ (∀ x, expires_at session = Some x ->
              (∀ sign, x ≠ S754_zero sign) -> x ≠ S754_nan ->
              expiresAt credentials
              = Some {| time_value := TimeClip (SFmul 53 1024 x (number_of_Z 1000)) |})
         ∧ (expires_at session = None
            ∨ (∃ sign, expires_at session = Some (S754_zero sign))
            ∨ expires_at session = Some S754_nan ->
            expiresAt credentials = None)).
Proof.
  intros response result. subst result. unfold fetchCredentials. fold response.
  split.
  - intros [-> | [e ->]]; [done |].
    by destruct (data_session response).
  - intros session -> ->. eexists. split; [done |]. cbn.
    split; [done |]. split; [by intros t -> |]. split; [by intros -> |].
    split.
    + intros x -> Hzero Hnan. unfold expiry_date.
      destruct x as [sign|sign| |sign m e]; cbn [number_truthy]; try done.
      by destruct (Hzero sign).
    + by intros [-> | [[sign ->] | ->]].
Qed.

(** The time value of a date that is not invalid lies within the range of
    dates, and is the number itself cut towards zero. *)
Lemma TimeClip_in_range (time : spec_float) (t : Z) :
  TimeClip time = Some t -> (- max_time_value <= t <= max_time_value)%Z.
Proof.
  destruct time as [sign|sign| |sign m e]; cbn [TimeClip]; try done.
  - intros [= <-]. done.
  - unfold beyond_max_time_value.
    destruct (Z.leb_spec 0 e) as [He|He].
    + rewrite Z.shiftl_mul_pow2 by done.
      destruct (Z.ltb_spec max_time_value (Z.pos m * 2 ^ e)) as [|Hle]; [done |].
      assert (0 <= Z.pos m * 2 ^ e)%Z by (apply Z.mul_nonneg_nonneg; lia).
      unfold max_time_value in *. destruct sign; intros [= <-]; lia.
    + destruct (Z.ltb_spec (max_time_value * 2 ^ (- e)) (Z.pos m)) as [|Hle]; [done |].
      rewrite Z.shiftl_div_pow2 by lia.
      assert (0 < 2 ^ (- e))%Z by (apply Z.pow_pos_nonneg; lia).
      assert (0 <= Z.pos m / 2 ^ (- e) <= max_time_value)%Z.
      { split; [apply Z.div_pos; lia |].
        apply Z.div_le_upper_bound; lia. }
      unfold max_time_value in *. destruct sign; intros [= <-]; lia.
Qed.

Lemma fetchCredentials_outcome_witness :
  (fetchCredentials (provider_with None) fresh_world).1
  = Threw (new_Error "Could not fetch Supabase credentials: null")
  ∧ ∃ credentials,
      (fetchCredentials (provider_with (Some session_live)) fresh_world).1
      = Normal credentials
      ∧ endpoint credentials = "https://sync.example"
      ∧ (∀ t, Some "jwt" = Some t -> token credentials = t)
      ∧ (access_token session_live = None -> token credentials = "")
      ∧ (∀ x, expires_at session_live = Some x ->
           (∀ sign, x ≠ S754_zero sign) -> x ≠ S754_nan ->
           expiresAt credentials
           = Some {| time_value := TimeClip (SFmul 53 1024 x (number_of_Z 1000)) |})
      ∧ (expires_at session_live = None
         ∨ (∃ sign, expires_at session_live = Some (S754_zero sign))
         ∨ expires_at session_live = Some S754_nan ->
         expiresAt credentials = None).
Proof.
  split.
  - apply (proj1 (fetchCredentials_outcome (provider_with None) fresh_world)).
    left. reflexivity.
  - apply (proj2 (fetchCredentials_outcome (provider_with (Some session_live))
                    fresh_world) session_live); reflexivity.
Defined.

(** The expiry of a live session, in seconds, becomes the same instant in
    milliseconds. *)
Example fetchCredentials_live_expiry :
  (fetchCredentials (provider_with (Some session_live)) fresh_world).1
  = Normal {| endpoint := "https://sync.example"; token := "jwt";
              expiresAt := Some {| time_value := Some 1700000000000%Z |} |}.
Proof. reflexivity. Qed.

(** An expiry whose product with 1000 is beyond the range of dates gives
    an Invalid Date; the last expiry within the range is 8640000000000. *)
Example fetchCredentials_expiry_out_of_range :
  expiry_date (Some (number_of_Z 8640000000000))
  = Some {| time_value := Some 8640000000000000%Z |}
  ∧ expiry_date (Some (number_of_Z 8640000000001)) = Some {| time_value := None |}
  ∧ expiry_date (Some (S754_infinity false)) = Some {| time_value := None |}.
Proof. repeat split. Qed.

(** A fractional expiry is cut to whole milliseconds; [NaN] and [-0] are
    falsy and give no expiry. *)
Example fetchCredentials_expiry_fraction_nan :
  expiry_date (Some (binary_normalize 53 1024 3 (-1) false))
  = Some {| time_value := Some 1500%Z |}
  ∧ expiry_date (Some (binary_normalize 53 1024 1 (-11) false))
    = Some {| time_value := Some 0%Z |}
  ∧ expiry_date (Some S754_nan) = None
  ∧ expiry_date (Some (S754_zero true)) = None.
Proof. repeat split. Qed.

(** A session without an access token yields the empty token. *)
Example fetchCredentials_no_token :
  (fetchCredentials (provider_with (Some session_no_token)) fresh_world).1
  = Normal {| endpoint := "https://sync.example"; token := ""; expiresAt := None |}.
Proof. reflexivity. Qed.

(** C5 as stated fails for a session whose [expires_at] is present and
    zero: the credentials carry no expiry. *)
Lemma fetchCredentials_epoch_expiry_dropped :
  data_session (provider_with (Some session_epoch) (log fresh_world))
  = Some session_epoch
  ∧ error (provider_with (Some session_epoch) (log fresh_world)) = None
  ∧ expires_at session_epoch = Some (S754_zero false)
  ∧ (fetchCredentials (provider_with (Some session_epoch)) fresh_world).1
    = Normal {| endpoint := "https://sync.example"; token := "jwt";
                expiresAt := None |}.
Proof. repeat split. Qed.

(** ** Fatal codes, spelled out *)

Lemma regex_test_class digit code :
  regex_test [ReChar "2"; ReChar digit; ReDot; ReDot; ReDot] code = true
  ↔ class_code digit code.
Proof.
  split.
  - destruct code as [|c1 [|c2 [|c3 [|c4 [|c5 [|c6 s]]]]]];
      cbn [regex_test atom_matches]; rewrite ?andb_false_r; try done.
    rewrite andb_true_r, !Bool.andb_true_iff, !Ascii.eqb_eq, !negb_true_iff.
    intros (<- & <- & H3 & H4 & H5). by exists c3, c4, c5.
  - intros (c3 & c4 & c5 & -> & H3 & H4 & H5).
    cbn [regex_test atom_matches]. by rewrite !Ascii.eqb_refl, H3, H4, H5.
Qed.

Lemma regex_test_42501 code :
  regex_test [ReChar "4"; ReChar "2"; ReChar "5"; ReChar "0"; ReChar "1"] code = true
  ↔ code = "42501".
Proof.
  split; [| by intros ->].
  destruct code as [|c1 [|c2 [|c3 [|c4 [|c5 [|c6 s]]]]]];
    cbn [regex_test atom_matches]; rewrite ?andb_false_r; try done.
  rewrite andb_true_r, !Bool.andb_true_iff, !Ascii.eqb_eq.
  by intros (<- & <- & <- & <- & <-).
Qed.

(** The thrown values the [catch] block discards are exactly those whose
    [code] is a string of class 22 or of class 23 (five characters, the
    last three free but for line terminators), or the string [42501]. A
    longer or shorter string, a code of another type and a missing code
    are all rethrown. *)
Theorem is_fatal_exactly (ex : JsError) :
  is_fatal ex = true
  ↔ ∃ code, err_code ex = JStr code
            ∧ (class_code "2" code ∨ class_code "3" code ∨ code = "42501").
Proof.
  unfold is_fatal. split.
  - destruct (err_code ex) as [| | |n|code]; try done.
    cbn [existsb FATAL_RESPONSE_CODES].
    rewrite orb_false_r, !Bool.orb_true_iff,
      !regex_test_class, regex_test_42501.
    intros H. by exists code.
  - intros (code & -> & H). cbn [existsb FATAL_RESPONSE_CODES].
    by rewrite orb_false_r, !Bool.orb_true_iff,
      !regex_test_class, regex_test_42501.
Qed.

Lemma is_fatal_exactly_witness :
  is_fatal fk_rejection = true
  ∧ ∃ code, err_code invalid_login = JStr code
            ∧ ¬ (class_code "2" code ∨ class_code "3" code ∨ code = "42501").
Proof.
  split.
  - apply (proj2 (is_fatal_exactly fk_rejection)).
    exists "23503". split; [reflexivity |]. right. left.
    exists "5"%char, "0"%char, "3"%char. repeat split.
  - exists "invalid_credentials". split; [reflexivity |].
    intros Hclass.
    assert (is_fatal invalid_login = true) as Hfatal.
    { apply (proj2 (is_fatal_exactly invalid_login)).
      exists "invalid_credentials". split; [reflexivity | exact Hclass]. }
    discriminate Hfatal.
Defined.

(** ** Counting and sorting events *)

Lemma count_event_app ev evs1 evs2 :
  count_event ev (evs1 ++ evs2) = count_event ev evs1 + count_event ev evs2.
Proof. unfold count_event. by rewrite filter_app, length_app. Qed.

Lemma count_event_absent ev evs : ev ∉ evs -> count_event ev evs = 0.
Proof.
  unfold count_event. induction evs as [|e evs IH]; [done |].
  intros Hn. apply not_elem_of_cons in Hn as [Hne Hn].
  rewrite filter_cons. destruct (decide (e = ev)) as [Heq|_]; [by destruct Hne | auto].
Qed.

Lemma started_sessions_app evs1 evs2 :
  started_sessions (evs1 ++ evs2) = started_sessions evs1 ++ started_sessions evs2.
Proof. apply omap_app. Qed.

Lemma upload_events_not_session evs :
  Forall (fun ev => is_upload_event ev = true) evs ->
  started_sessions evs = []
  ∧ (EvInitialized ∉ evs)
  ∧ (EvGetSession ∉ evs)
  ∧ (∀ email password, EvSignIn email password ∉ evs)
  ∧ (∀ session, EvSessionStarted session ∉ evs).
Proof.
  induction 1 as [|ev evs Hev _ (IH1 & IH2 & IH3 & IH4 & IH5)].
  - repeat split; intros; apply not_elem_of_nil.
  - destruct ev; try discriminate Hev; cbn.
    all: repeat split; [done | try intros ..];
      apply not_elem_of_cons; split; auto; discriminate.
Qed.

Lemma session_events_not_upload evs :
  Forall (fun ev => is_session_event ev = true) evs ->
  remote_calls evs = [] ∧ EvComplete ∉ evs.
Proof.
  induction 1 as [|ev evs Hev _ (IH1 & IH2)].
  - split; [done | apply not_elem_of_nil].
  - destruct ev; try discriminate Hev; cbn.
    all: split; [done |]; apply not_elem_of_cons; split; auto; discriminate.
Qed.

(** ** The upload bridge: what it touches, and in which order *)

Section UploadFrame.

Variable remote : list Event -> RemoteCall -> CallOutcome.

(** What the loop logs: upload events only, and as store requests a
    prefix of the requests of the operations, in their order. *)
Lemma replay_requests ops lastOp w :
  ∃ evs, grows w (replay remote ops lastOp w).2.2 evs
         ∧ Forall (fun ev => is_upload_event ev = true) evs
         ∧ remote_calls evs `prefix_of` omap remote_call_of ops.
Proof.
  revert lastOp w. induction ops as [|op rest IH]; intros lastOp w; cbn.
  - exists []. split; [apply grows_refl |]. split; [constructor | done].
  - unfold replay_one. rewrite dispatch_remote_call_of.
    destruct (remote_call_of op) as [call|]; cbn.
    + unfold await_remote.
      destruct (remote (log w) call) as [[e|]|ex]; cbn.
      * exists [EvRemote call; EvConsole LevelError [CStoreError e]].
        split; [| split; [by repeat constructor | apply prefix_cons, prefix_nil]].
        apply (grows_trans _ (emit (EvRemote call) w) _ [_] [_]); apply grows_emit.
      * destruct (IH (Some op) (emit (EvRemote call) w)) as (evs & Hg & Hall & Hpre).
        exists (EvRemote call :: evs). split; [| split].
        -- apply (grows_trans _ _ _ [_] _ (grows_emit _ w) Hg).
        -- by constructor.
        -- by apply prefix_cons.
      * exists [EvRemote call].
        split; [apply grows_emit |].
        split; [by repeat constructor | apply prefix_cons, prefix_nil].
    + exists []. split; [apply grows_refl |].
      split; [constructor | apply prefix_nil].
Qed.

Lemma await_complete_grows transaction w :
  grows w (await_complete transaction w).2 [EvComplete].
Proof. rewrite await_complete_world. apply grows_emit. Qed.

(** What the [catch] block logs: console lines and at most one
    [complete()], at the end. *)
Lemma catch_block_events transaction lastOp ex w :
  ∃ evs, grows w (catch_block transaction lastOp ex w).2 evs
         ∧ Forall (fun ev => is_upload_event ev = true) evs
         ∧ remote_calls evs = [].
Proof.
  unfold catch_block. destruct (is_fatal ex).
  - exists [EvConsole LevelDebug [CThrown ex];
            EvConsole LevelError [CDiscarding lastOp; CThrown ex];
            EvComplete].
    split; [| split; [by repeat constructor | done]].
    apply (grows_trans _ (emit (EvConsole LevelDebug [CThrown ex]) w) _ [_] [_; _]);
      [apply grows_emit |].
    apply (grows_trans _ (emit (EvConsole LevelError [CDiscarding lastOp; CThrown ex])
                            (emit (EvConsole LevelDebug [CThrown ex]) w)) _ [_] [_]);
      [apply grows_emit | apply await_complete_grows].
  - exists [EvConsole LevelDebug [CThrown ex]].
    split; [apply grows_emit | split; [by repeat constructor | done]].
Qed.

(** The whole of [uploadData], for a pending transaction. *)
Lemma uploadData_events transaction w :
  ∃ evs, grows w (uploadData remote (Some transaction) w).2 evs
         ∧ Forall (fun ev => is_upload_event ev = true) evs
         ∧ remote_calls evs `prefix_of` omap remote_call_of (crud transaction).
Proof.
  destruct (replay_requests (crud transaction) None w) as (evs1 & Hg1 & Hall1 & Hpre1).
  unfold uploadData, try_block.
  destruct (replay remote (crud transaction) None w) as [lastOp [[[]|ex] w1]];
    cbn in Hg1.
  - unfold await_complete.
    destruct (complete transaction (log w1)) as [ex|]; cbn.
    + destruct (catch_block_events transaction lastOp ex (emit EvComplete w1))
        as (evs3 & Hg3 & Hall3 & Hr3).
      exists (evs1 ++ [EvComplete] ++ evs3). split; [| split].
      * apply (grows_trans _ _ _ _ _ Hg1), (grows_trans _ _ _ _ _ (grows_emit _ w1)), Hg3.
      * apply Forall_app. split; [done |]. by constructor.
      * rewrite remote_calls_app. cbn. unfold remote_calls in Hr3.
        by rewrite Hr3, app_nil_r.
    + exists (evs1 ++ [EvComplete]). split; [| split].
      * apply (grows_trans _ _ _ _ _ Hg1), grows_emit.
      * apply Forall_app. split; [done |]. by repeat constructor.
      * by rewrite remote_calls_app, app_nil_r.
  - destruct (catch_block_events transaction lastOp ex w1) as (evs3 & Hg3 & Hall3 & Hr3).
    exists (evs1 ++ evs3). split; [| split].
    + apply (grows_trans _ _ _ _ _ Hg1), Hg3.
    + by apply Forall_app.
    + by rewrite remote_calls_app, Hr3, app_nil_r.
Qed.

(** [uploadData] for whatever the queue handed out. *)
Lemma uploadData_effect next w :
  ∃ evs, grows w (uploadData remote next w).2 evs
         ∧ Forall (fun ev => is_upload_event ev = true) evs.
Proof.
  destruct next as [transaction|].
  - destruct (uploadData_events transaction w) as (evs & Hg & Hall & _).
    by exists evs.
  - exists []. split; [apply grows_refl | constructor].
Qed.

End UploadFrame.

(** [uploadData] never touches the fields of the connector and never
    talks to the identity provider or to the listeners: whatever the
    queue, the store and [complete()] answer, [config], [ready] and
    [currentSession] are as before and every logged event is a store
    request, a [complete()] or a console line. *)
Theorem uploadData_frame
    (remote : list Event -> RemoteCall -> CallOutcome)
    (next : option CrudTransaction) (w : World) :
  let w' := (uploadData remote next w).2 in
  conn w' = conn w
  ∧ Forall (fun ev => is_upload_event ev = true) (new_events w w')
  ∧ (EvGetSession ∉ new_events w w')
  ∧ (∀ email password, EvSignIn email password ∉ new_events w w')
  ∧ (EvInitialized ∉ new_events w w')
  ∧ (∀ session, EvSessionStarted session ∉ new_events w w').
Proof.
  intros w'. subst w'.
  destruct (uploadData_effect remote next w) as (evs & Hg & Hall).
  rewrite (grows_new_events _ _ _ Hg).
  destruct (upload_events_not_session evs Hall) as (_ & H1 & H2 & H3 & H4).
  by destruct Hg as [-> _].
Qed.

(** ** The upload bridge: the ways a transaction can end *)

(** When every operation of the transaction succeeds and [complete()]
    resolves, [uploadData] returns normally having issued one request per
    operation, in order, and then the single [complete()]. *)
Theorem uploadData_success_trace
    (remote : list Event -> RemoteCall -> CallOutcome)
    (transaction : CrudTransaction) (w w1 : World) :
  replayed remote (crud transaction) w w1 ->
  complete transaction (log w1) = None ->
  ∃ calls w',
    uploadData remote (Some transaction) w = (Normal tt, w')
    ∧ Forall2 (fun op call => remote_call_of op = Some call) (crud transaction) calls
    ∧ new_events w w' = (EvRemote <$> calls) ++ [EvComplete]
    ∧ conn w' = conn w.
Proof.
  intros Hall Hc.
  destruct (replayed_grows remote _ _ _ Hall) as (calls & Hcalls & Hg).
  exists calls, (emit EvComplete w1).
  split; [| split; [exact Hcalls |]].
  - unfold uploadData, try_block.
    rewrite (replay_all_normal remote _ None w w1 Hall).
    unfold await_complete. by rewrite Hc.
  - pose proof (grows_trans _ _ _ _ _ Hg (grows_emit EvComplete w1)) as Hg'.
    split; [by apply grows_new_events | by destruct Hg'].
Qed.

Lemma uploadData_success_trace_witness :
  ∃ calls w',
    uploadData store_ok (Some (pending [put_milk; patch_done])) fresh_world
    = (Normal tt, w')
    ∧ Forall2 (fun op call => remote_call_of op = Some call)
        [put_milk; patch_done] calls
    ∧ new_events fresh_world w' = (EvRemote <$> calls) ++ [EvComplete]
    ∧ conn w' = conn fresh_world.
Proof.
  eapply (uploadData_success_trace store_ok (pending [put_milk; patch_done])
            fresh_world).
  - eapply replayed_cons; [reflexivity |].
    eapply replayed_cons; [reflexivity | apply replayed_nil].
  - reflexivity.
Defined.

(** An error that the store reports in the [error] member of a response
    is never discarded, whatever its code: [uploadData] logs it, throws a
    fresh [Error] whose message is the store's message after a fixed
    prefix and which has no code, issues nothing for the operations that
    follow, and does not call [complete()]. *)
Theorem uploadData_reported_error
    (remote : list Event -> RemoteCall -> CallOutcome)
    (transaction : CrudTransaction) (pre post : list CrudEntry)
    (op : CrudEntry) (call : RemoteCall) (e : PostgrestError) (w w1 : World) :
  crud transaction = pre ++ op :: post ->
  replayed remote pre w w1 ->
  remote_call_of op = Some call ->
  remote (log w1) call = Resolved (Some e) ->
  ∃ w',
    uploadData remote (Some transaction) w
    = (Threw {| err_name := "Error";
                err_message := "Could not update Supabase. Received error: "
                               +:+ pg_message e;
                err_code := JUndefined |}, w')
    ∧ new_events w1 w'
      = [EvRemote call;
         EvConsole LevelError [CStoreError e];
         EvConsole LevelDebug
           [CThrown (new_Error ("Could not update Supabase. Received error: "
                                +:+ pg_message e))]]
    ∧ EvComplete ∉ new_events w w'.
Proof.
  intros Hcrud Hpre Hcall Hres.
  eexists. split; [| split].
  - apply (uploadData_store_error remote transaction pre post op call e w w1);
      assumption.
  - apply new_events_app. cbn. by rewrite <- !app_assoc.
  - destruct (replayed_grows remote pre w w1 Hpre) as (calls & _ & [_ Hlog]).
    rewrite (new_events_app w _ ((EvRemote <$> calls) ++
               [EvRemote call;
                EvConsole LevelError [CStoreError e];
                EvConsole LevelDebug
                  [CThrown (new_Error ("Could not update Supabase. Received error: "
                                       +:+ pg_message e))]])).
    + rewrite elem_of_app, list_elem_of_fmap, !elem_of_cons, elem_of_nil.
      intros [(c & Heq & _) | [Heq | [Heq | [Heq | []]]]]; discriminate Heq.
    + cbn. rewrite Hlog. by rewrite <- !app_assoc.
Qed.

Lemma uploadData_reported_error_witness :
  ∃ w',
    uploadData store_fk (Some (pending [put_milk; delete_two; patch_done])) fresh_world
    = (Threw {| err_name := "Error";
                err_message := "Could not update Supabase. Received error: "
                               +:+ pg_message fk_violation;
                err_code := JUndefined |}, w')
    ∧ new_events
        (emit (EvRemote (Upsert "todos"
                 (<["id" := JStr "1"]> {[ "description" := JStr "buy milk" ]})))
           fresh_world) w'
      = [EvRemote (Delete "todos" "2");
         EvConsole LevelError [CStoreError fk_violation];
         EvConsole LevelDebug
           [CThrown (new_Error ("Could not update Supabase. Received error: "
                                +:+ pg_message fk_violation))]]
    ∧ EvComplete ∉ new_events fresh_world w'.
Proof.
  apply (uploadData_reported_error store_fk
           (pending [put_milk; delete_two; patch_done])
           [put_milk] [patch_done] delete_two (Delete "todos" "2") fk_violation
           fresh_world).
  - reflexivity.
  - eapply replayed_cons; [reflexivity | apply replayed_nil].
  - reflexivity.
  - reflexivity.
Defined.

(** The discard branch: when a store request rejects with a value whose
    code is fatal, [uploadData] logs the rejection, then the discard line
    with the failing operation, calls [complete()] and, if that resolves,
    returns normally. The operations after the failing one are never
    requested. *)
Theorem uploadData_rejection_discarded
    (remote : list Event -> RemoteCall -> CallOutcome)
    (transaction : CrudTransaction) (pre post : list CrudEntry)
    (op : CrudEntry) (call : RemoteCall) (ex : JsError) (w w1 : World) :
  crud transaction = pre ++ op :: post ->
  replayed remote pre w w1 ->
  remote_call_of op = Some call ->
  remote (log w1) call = Rejected ex ->
  is_fatal ex = true ->
  complete transaction
    (log w1 ++ [EvRemote call;
                EvConsole LevelDebug [CThrown ex];
                EvConsole LevelError [CDiscarding (Some op); CThrown ex]]) = None ->
  ∃ w',
    uploadData remote (Some transaction) w = (Normal tt, w')
    ∧ new_events w1 w'
      = [EvRemote call;
         EvConsole LevelDebug [CThrown ex];
         EvConsole LevelError [CDiscarding (Some op); CThrown ex];
         EvComplete].
Proof.
  intros Hcrud Hpre Hcall Hrej Hfatal Hc.
  rewrite (uploadData_rejected_fatal remote transaction pre op post call ex w w1)
    by assumption.
  unfold await_complete. cbn. rewrite <- !app_assoc. cbn. rewrite Hc.
  eexists. split; [done |].
  apply new_events_app. cbn. by rewrite <- !app_assoc.
Qed.

Lemma uploadData_rejection_discarded_witness :
  is_fatal fk_rejection = true
  ∧ ∃ w',
      uploadData store_rejecting
        (Some (pending [put_milk; delete_two; patch_done])) fresh_world
      = (Normal tt, w')
      ∧ new_events
          (emit (EvRemote (Upsert "todos"
                   (<["id" := JStr "1"]> {[ "description" := JStr "buy milk" ]})))
             fresh_world) w'
        = [EvRemote (Delete "todos" "2");
           EvConsole LevelDebug [CThrown fk_rejection];
           EvConsole LevelError [CDiscarding (Some delete_two); CThrown fk_rejection];
           EvComplete].
Proof.
  split; [reflexivity |].
  apply (uploadData_rejection_discarded store_rejecting
           (pending [put_milk; delete_two; patch_done])
           [put_milk] [patch_done] delete_two (Delete "todos" "2") fk_rejection
           fresh_world).
  - reflexivity.
  - eapply replayed_cons; [reflexivity | apply replayed_nil].
  - reflexivity.
  - reflexivity.
  - reflexivity.
  - reflexivity.
Defined.

(** [complete()] sits inside the [try] block: when all operations
    succeeded and [complete()] itself rejects, the rejection is classified
    like any other. With a code that is not fatal it is rethrown after the
    one [complete()]. With a fatal code, [complete()] is called a second
    time after the discard line, which names the last operation of the
    transaction, and that second call decides how [uploadData] ends. *)
Theorem uploadData_complete_rejects
    (remote : list Event -> RemoteCall -> CallOutcome)
    (transaction : CrudTransaction) (ex : JsError) (w w1 : World) :
  replayed remote (crud transaction) w w1 ->
  complete transaction (log w1) = Some ex ->
  ∃ w',
    new_events w1 w'
    = [EvComplete; EvConsole LevelDebug [CThrown ex]]
      ++ (if is_fatal ex
          then [EvConsole LevelError [CDiscarding (last (crud transaction)); CThrown ex];
                EvComplete]
          else [])
    ∧ uploadData remote (Some transaction) w
      = (if is_fatal ex
         then match complete transaction
                      (log w1 ++ [EvComplete; EvConsole LevelDebug [CThrown ex];
                                  EvConsole LevelError
                                    [CDiscarding (last (crud transaction)); CThrown ex]])
              with
              | None => Normal tt
              | Some ex2 => Threw ex2
              end
         else Threw ex, w').
Proof.
  intros Hall Hc. unfold uploadData, try_block.
  rewrite (replay_all_normal remote _ None w w1 Hall).
  unfold await_complete at 1. rewrite Hc. unfold catch_block.
  replace (from_option Some None (last (crud transaction)))
    with (last (crud transaction)) by (by destruct (last (crud transaction))).
  destruct (is_fatal ex).
  - unfold await_complete. cbn. rewrite <- !app_assoc. cbn.
    exists (emit EvComplete
              (emit (EvConsole LevelError
                       [CDiscarding (last (crud transaction)); CThrown ex])
                 (emit (EvConsole LevelDebug [CThrown ex]) (emit EvComplete w1)))).
    split; [| clear Hc; by destruct (complete transaction _)].
    apply new_events_app. cbn. by rewrite <- !app_assoc.
  - eexists. split; [| done].
    apply new_events_app. cbn. by rewrite <- !app_assoc.
Qed.

Lemma uploadData_complete_rejects_witness :
  (∃ w',
     new_events (emit (EvRemote (Delete "todos" "2")) fresh_world) w'
     = [EvComplete; EvConsole LevelDebug [CThrown fk_rejection];
        EvConsole LevelError [CDiscarding (Some delete_two); CThrown fk_rejection];
        EvComplete]
     ∧ uploadData store_ok (Some (pending_retry fk_rejection [delete_two])) fresh_world
       = (Normal tt, w'))
  ∧ (∃ w',
       new_events (emit (EvRemote (Delete "todos" "2")) fresh_world) w'
       = [EvComplete; EvConsole LevelDebug [CThrown fetch_failed]]
       ∧ uploadData store_ok (Some (pending_retry fetch_failed [delete_two])) fresh_world
         = (Threw fetch_failed, w')).
Proof.
  split.
  - apply (uploadData_complete_rejects store_ok
             (pending_retry fk_rejection [delete_two]) fk_rejection fresh_world
             (emit (EvRemote (Delete "todos" "2")) fresh_world)).
    + eapply replayed_cons; [reflexivity | apply replayed_nil].
    + reflexivity.
  - apply (uploadData_complete_rejects store_ok
             (pending_retry fetch_failed [delete_two]) fetch_failed fresh_world
             (emit (EvRemote (Delete "todos" "2")) fresh_world)).
    + eapply replayed_cons; [reflexivity | apply replayed_nil].
    + reflexivity.
Defined.

(** [uploadData] never returns normally on a pending transaction without
    having acknowledged it: if it returns, the last thing it did was a
    [complete()] that resolved. *)
Theorem uploadData_normal_acknowledged
    (remote : list Event -> RemoteCall -> CallOutcome)
    (transaction : CrudTransaction) (w w' : World) :
  uploadData remote (Some transaction) w = (Normal tt, w') ->
  ∃ evs, new_events w w' = evs ++ [EvComplete]
         ∧ complete transaction (log w ++ evs) = None.
Proof.
  unfold uploadData, try_block.
  destruct (replay_grows remote (crud transaction) None w) as (evs1 & Hg1 & _).
  destruct (replay remote (crud transaction) None w) as [lastOp [[[]|ex] w1]];
    cbn in Hg1; destruct Hg1 as [_ Hlog1].
  - unfold await_complete at 1.
    destruct (complete transaction (log w1)) as [ex|] eqn:Hc.
    + unfold catch_block. destruct (is_fatal ex); [| done].
      unfold await_complete.
      match goal with
      | |- context [complete transaction ?l] =>
          destruct (complete transaction l) as [ex2|] eqn:Hc2; [done |]
      end.
      intros [= <-]. cbn in Hc2. rewrite Hlog1, <- !app_assoc in Hc2.
      eexists. split; [| exact Hc2].
      apply new_events_app. cbn. by rewrite Hlog1, <- !app_assoc.
    + intros [= <-]. exists evs1. rewrite <- Hlog1. split; [| done].
      apply new_events_app. cbn. by rewrite Hlog1, <- app_assoc.
  - unfold catch_block. destruct (is_fatal ex); [| done].
    unfold await_complete.
    destruct (complete transaction _) as [ex2|] eqn:Hc2; [done |].
    intros [= <-]. cbn in Hc2. rewrite Hlog1, <- !app_assoc in Hc2.
    eexists. split; [| exact Hc2].
    apply new_events_app. cbn. by rewrite Hlog1, <- !app_assoc.
Qed.

Lemma uploadData_normal_acknowledged_witness :
  ∃ evs,
    new_events fresh_world
      (emit EvComplete
         (emit (EvRemote (Delete "todos" "2")) fresh_world))
    = evs ++ [EvComplete]
    ∧ complete (pending [delete_two]) (log fresh_world ++ evs) = None.
Proof.
  apply (uploadData_normal_acknowledged store_ok (pending [delete_two]) fresh_world).
  reflexivity.
Defined.

(** ** The life of a connector *)

Section LifetimeFacts.

Variable getSession : list Event -> AuthResponse.
Variable signInWithPassword : list Event -> string -> string -> AuthResponse.
Variable remote : list Event -> RemoteCall -> CallOutcome.

(** What [login] does to the world. *)
Lemma login_effect username password w :
  let response := signInWithPassword (log w) username password in
  let w' := (login signInWithPassword username password w).2 in
  config (conn w') = config (conn w)
  ∧ ready (conn w') = ready (conn w)
  ∧ (match error response with
     | Some _ => conn w' = conn w ∧ log w' = log w ++ [EvSignIn username password]
     | None =>
         currentSession (conn w') = data_session response
         ∧ log w' = log w ++ [EvSignIn username password]
                      ++ option_list (EvSessionStarted <$> data_session response)
     end).
Proof.
  intros response w'. subst w'. unfold login. fold response.
  destruct (error response) as [e|]; cbn; [done |].
  destruct (data_session response) as [s|]; cbn; [| done].
  repeat split. by rewrite <- app_assoc.
Qed.

(** One call, summed up: the configuration stays, [ready] only ever
    rises and only [init] raises it, and the events added are counted. *)
Lemma call_effect c w :
  let w' := call getSession signInWithPassword remote c w in
  let raised := if ready (conn w) then 0 else if ready (conn w') then 1 else 0 in
  config (conn w') = config (conn w)
  ∧ (ready (conn w) = true -> ready (conn w') = true)
  ∧ (ready (conn w') = true -> ready (conn w) = true ∨ c = CallInit)
  ∧ (c = CallInit -> ready (conn w') = true)
  ∧ ∃ evs,
      log w' = log w ++ evs
      ∧ count_event EvInitialized evs = raised
      ∧ count_event EvGetSession evs = (if is_fetch_call c then 1 else 0) + raised
      ∧ (conn w' = conn w ∧ started_sessions evs = []
         ∨ started_sessions evs = option_list (currentSession (conn w')))
      ∧ (is_upload_call c = false ->
         Forall (fun ev => is_session_event ev = true) evs).
Proof.
  destruct c as [|username password| |next]; cbn [call is_fetch_call is_upload_call].
  - destruct (ready (conn w)) eqn:Hready.
    + rewrite (init_ready getSession w Hready). cbn. rewrite ?Hready.
      repeat split; auto. exists []. rewrite app_nil_r. repeat split; auto.
    + destruct (init_not_ready getSession w Hready) as (w1 & -> & Hconn & Hlog).
      cbn. rewrite ?Hready, Hconn. cbn.
      repeat split; auto. eexists. split; [exact Hlog |].
      destruct (data_session (getSession (log w))) as [s|]; cbn;
        repeat split; auto; by repeat constructor.
  - destruct (login_effect username password w) as (Hcfg & Hrdy & Hrest).
    cbn zeta. rewrite Hrdy, Hcfg. destruct (ready (conn w)) eqn:Hready.
    all: repeat split; auto; try discriminate.
    all: destruct (error (signInWithPassword (log w) username password)) as [e|].
    all: try (destruct Hrest as [Hconn Hlog]; eexists; split; [exact Hlog |];
              repeat split; auto; by repeat constructor).
    all: destruct Hrest as [Hcur Hlog]; eexists; split; [exact Hlog |];
      rewrite Hcur;
      destruct (data_session (signInWithPassword (log w) username password));
      cbn; repeat split; auto; by repeat constructor.
  - destruct (fetchCredentials_grows getSession w) as (evs & [Hconn Hlog] & Hevs).
    cbn zeta. rewrite Hconn. destruct (ready (conn w)) eqn:Hready.
    all: repeat split; auto; try discriminate.
    all: exists evs; split; [exact Hlog |].
    all: destruct Hevs as [-> | (n & ->)]; repeat split; auto;
      by repeat constructor.
  - destruct (uploadData_effect remote next w) as (evs & [Hconn Hlog] & Hall).
    destruct (upload_events_not_session _ Hall) as (Hs & Hi & Hg & _).
    cbn zeta. rewrite Hconn. destruct (ready (conn w)) eqn:Hready.
    all: repeat split; auto; try discriminate.
    all: exists evs; split; [exact Hlog |].
    all: rewrite !count_event_absent by done; repeat split; auto; discriminate.
Qed.

End LifetimeFacts.

Section Runs.

Variable getSession : list Event -> AuthResponse.
Variable signInWithPassword : list Event -> string -> string -> AuthResponse.
Variable remote : list Event -> RemoteCall -> CallOutcome.

Lemma run_cons c calls w : run getSession signInWithPassword remote (c :: calls) w = run getSession signInWithPassword remote calls (call getSession signInWithPassword remote c w).
Proof. reflexivity. Qed.

Lemma count_fetch_calls_cons c calls :
  count_fetch_calls (c :: calls)
  = (if is_fetch_call c then 1 else 0) + count_fetch_calls calls.
Proof. unfold count_fetch_calls. cbn. by destruct (is_fetch_call c). Qed.

(** A sequence of calls, summed up like a single one. *)
Lemma run_effect calls w :
  let w' := run getSession signInWithPassword remote calls w in
  let raised := if ready (conn w) then 0 else if ready (conn w') then 1 else 0 in
  config (conn w') = config (conn w)
  ∧ (ready (conn w) = true -> ready (conn w') = true)
  ∧ (ready (conn w') = true -> ready (conn w) = true ∨ CallInit ∈ calls)
  ∧ (CallInit ∈ calls -> ready (conn w') = true)
  ∧ ∃ evs,
      log w' = log w ++ evs
      ∧ count_event EvInitialized evs = raised
      ∧ count_event EvGetSession evs = count_fetch_calls calls + raised
      ∧ (Forall (fun c => is_upload_call c = false) calls ->
         Forall (fun ev => is_session_event ev = true) evs).
Proof.
  revert w. induction calls as [|c calls IH]; intros w.
  - cbn. split; [done |]. split; [done |]. split; [by left |].
    split; [by intros ?%elem_of_nil |].
    exists []. rewrite app_nil_r. by destruct (ready (conn w)).
  - rewrite run_cons.
    destruct (call_effect getSession signInWithPassword remote c w)
      as (Hcfg1 & Hup1 & Hdown1 & Hinit1 & evs1 & Hlog1 & Hi1 & Hg1 & _ & Hs1).
    destruct (IH (call getSession signInWithPassword remote c w))
      as (Hcfg2 & Hup2 & Hdown2 & Hinit2 & evs2 & Hlog2 & Hi2 & Hg2 & Hs2).
    cbn zeta in *.
    split; [congruence |]. split; [auto |]. split; [| split].
    + intros Hr. destruct (Hdown2 Hr) as [Hr1 | Hin]; [| right; by right].
      destruct (Hdown1 Hr1) as [? | Heq]; [by left | right].
      rewrite Heq. by left.
    + intros [Heq | Hin]%elem_of_cons; [| by auto].
      by apply Hup2, Hinit1.
    + exists (evs1 ++ evs2). rewrite Hlog2, Hlog1, <- app_assoc.
      split; [done |]. rewrite !count_event_app, Hi1, Hg1, Hi2, Hg2,
        count_fetch_calls_cons.
      assert ((if ready (conn w) then 0
               else if ready (conn (call getSession signInWithPassword remote c w)) then 1 else 0)
              + (if ready (conn (call getSession signInWithPassword remote c w)) then 0
                 else if ready (conn (run getSession signInWithPassword remote calls (call getSession signInWithPassword remote c w))) then 1 else 0)
              = (if ready (conn w) then 0
                 else if ready (conn (run getSession signInWithPassword remote calls (call getSession signInWithPassword remote c w))) then 1 else 0))
        as Hraise.
      { destruct (ready (conn w)) eqn:E0.
        - by rewrite (Hup1 eq_refl).
        - destruct (ready (conn (call getSession signInWithPassword remote c w))) eqn:E1; [| done].
          by rewrite (Hup2 eq_refl). }
      split; [exact Hraise |]. split; [lia |].
      intros [Hc Hcalls]%Forall_cons. apply Forall_app. auto.
Qed.

(** If the stored session was the last one announced, it still is after
    one more call. *)
Lemma call_session_announced c w :
  (∀ s, currentSession (conn w) = Some s ->
        last (started_sessions (log w)) = Some s) ->
  ∀ s, currentSession (conn (call getSession signInWithPassword remote c w)) = Some s ->
       last (started_sessions (log (call getSession signInWithPassword remote c w))) = Some s.
Proof.
  intros Hinv s.
  destruct (call_effect getSession signInWithPassword remote c w)
    as (_ & _ & _ & _ & evs & Hlog & _ & _ & [[Hconn Hst] | Hst] & _).
  - rewrite Hlog, started_sessions_app, Hst, app_nil_r, Hconn. apply Hinv.
  - rewrite Hlog, started_sessions_app, Hst. intros ->. cbn. apply last_snoc.
Qed.

End Runs.

(** ** The life of a connector: results *)

(** The configuration is read once, by the constructor: after any calls,
    credentials that [fetchCredentials] returns carry as endpoint the
    [VITE_POWERSYNC_URL] the connector was constructed with. *)
Theorem endpoint_is_configured
    (getSession : list Event -> AuthResponse)
    (signInWithPassword : list Event -> string -> string -> AuthResponse)
    (remote : list Event -> RemoteCall -> CallOutcome)
    (env : ImportMetaEnv) (calls : list Call) (credentials : Credentials) :
  (fetchCredentials getSession
     (run getSession signInWithPassword remote calls (new_connector env))).1
  = Normal credentials ->
  endpoint credentials = VITE_POWERSYNC_URL env.
Proof.
  destruct (run_effect getSession signInWithPassword remote calls (new_connector env))
    as (Hcfg & _).
  cbn zeta in Hcfg. unfold fetchCredentials.
  destruct (data_session _) as [s|]; [| done].
  destruct (error _) as [e|]; [done |].
  cbn. intros [= <-]. cbn. by rewrite Hcfg.
Qed.

Lemma endpoint_is_configured_witness :
  (fetchCredentials (provider_with (Some session_live))
     (run (provider_with (Some session_live)) sign_in_alice store_ok
        [CallLogin "alice@example.org" "secret"; CallInit;
         CallUploadData (Some (pending [put_milk]))]
        (new_connector demo_env))).1
  = Normal {| endpoint := "https://sync.example"; token := "jwt";
              expiresAt := Some {| time_value := Some 1700000000000%Z |} |}
  ∧ endpoint {| endpoint := "https://sync.example"; token := "jwt";
                expiresAt := Some {| time_value := Some 1700000000000%Z |} |}
    = VITE_POWERSYNC_URL demo_env.
Proof.
  split; [reflexivity |].
  apply (endpoint_is_configured (provider_with (Some session_live))
           sign_in_alice store_ok demo_env
           [CallLogin "alice@example.org" "secret"; CallInit;
            CallUploadData (Some (pending [put_milk]))]).
  reflexivity.
Defined.

(** Whenever a connector holds a session, that session is the one most
    recently announced to the [sessionStarted] listeners: no session is
    ever stored silently. *)
Theorem stored_session_was_announced
    (getSession : list Event -> AuthResponse)
    (signInWithPassword : list Event -> string -> string -> AuthResponse)
    (remote : list Event -> RemoteCall -> CallOutcome)
    (env : ImportMetaEnv) (calls : list Call) (s : Session) :
  let w := run getSession signInWithPassword remote calls (new_connector env) in
  currentSession (conn w) = Some s ->
  last (started_sessions (log w)) = Some s.
Proof.
  cbn zeta. revert s.
  assert (∀ w0,
    (∀ s, currentSession (conn w0) = Some s ->
          last (started_sessions (log w0)) = Some s) ->
    ∀ s, currentSession (conn (run getSession signInWithPassword remote calls w0))
         = Some s ->
         last (started_sessions
                 (log (run getSession signInWithPassword remote calls w0))) = Some s)
    as Hgen.
  { induction calls as [|c calls IH]; intros w0 Hinv; [exact Hinv |].
    rewrite run_cons. apply IH. by apply call_session_announced. }
  apply Hgen. intros s Hs. discriminate Hs.
Qed.

Lemma stored_session_was_announced_witness :
  currentSession
    (conn (run (provider_with (Some session_epoch)) sign_in_alice store_ok
             [CallLogin "alice@example.org" "secret"; CallInit;
              CallFetchCredentials]
             (new_connector demo_env))) = Some session_epoch
  ∧ last (started_sessions
          (log (run (provider_with (Some session_epoch)) sign_in_alice store_ok
                  [CallLogin "alice@example.org" "secret"; CallInit;
                   CallFetchCredentials]
                  (new_connector demo_env)))) = Some session_epoch.
Proof.
  split; [reflexivity |].
  apply (stored_session_was_announced (provider_with (Some session_epoch))
           sign_in_alice store_ok demo_env
           [CallLogin "alice@example.org" "secret"; CallInit; CallFetchCredentials]).
  reflexivity.
Defined.

(** Only [uploadData] talks to the store and to the queue: as long as it
    is not called, no store request and no [complete()] is in the log. *)
Theorem session_methods_leave_store_alone
    (getSession : list Event -> AuthResponse)
    (signInWithPassword : list Event -> string -> string -> AuthResponse)
    (remote : list Event -> RemoteCall -> CallOutcome)
    (env : ImportMetaEnv) (calls : list Call) :
  Forall (fun c => is_upload_call c = false) calls ->
  let w := run getSession signInWithPassword remote calls (new_connector env) in
  remote_calls (log w) = [] ∧ EvComplete ∉ log w.
Proof.
  intros Hcalls.
  destruct (run_effect getSession signInWithPassword remote calls (new_connector env))
    as (_ & _ & _ & _ & evs & Hlog & _ & _ & Hs).
  cbn zeta in *. cbn in Hlog. rewrite Hlog.
  by apply session_events_not_upload, Hs.
Qed.

Lemma session_methods_leave_store_alone_witness :
  remote_calls
    (log (run provider_down sign_in_alice store_ok
            [CallInit; CallLogin "alice@example.org" "secret"; CallFetchCredentials]
            (new_connector demo_env))) = []
  ∧ EvComplete ∉
      log (run provider_down sign_in_alice store_ok
             [CallInit; CallLogin "alice@example.org" "secret"; CallFetchCredentials]
             (new_connector demo_env)).
Proof.
  apply (session_methods_leave_store_alone provider_down sign_in_alice store_ok
           demo_env
           [CallInit; CallLogin "alice@example.org" "secret"; CallFetchCredentials]).
  repeat constructor.
Defined.

(** ** Sessions and credentials: more results *)

(** [fetchCredentials] uses nothing the connector has stored: two
    connectors with the same configuration and the same history get the
    same outcome, whatever their [ready] flag and current session are, and
    each call asks the provider exactly once. *)
Theorem fetchCredentials_uncached
    (getSession : list Event -> AuthResponse) (w1 w2 : World) :
  config (conn w1) = config (conn w2) ->
  log w1 = log w2 ->
  (fetchCredentials getSession w1).1 = (fetchCredentials getSession w2).1
  ∧ count_event EvGetSession (new_events w1 (fetchCredentials getSession w1).2) = 1.
Proof.
  intros Hcfg Hlog. split.
  - unfold fetchCredentials. rewrite Hlog.
    destruct (data_session (getSession (log w2))) as [s|]; [| done].
    destruct (error (getSession (log w2))) as [e|]; [done |].
    cbn. by rewrite Hcfg.
  - destruct (fetchCredentials_grows getSession w1) as (evs & Hg & Hevs).
    rewrite (grows_new_events _ _ _ Hg).
    by destruct Hevs as [-> | (n & ->)].
Qed.

Lemma fetchCredentials_uncached_witness :
  (fetchCredentials (provider_with (Some session_live)) fresh_world).1
  = (fetchCredentials (provider_with (Some session_live)) signed_in_world).1
  ∧ count_event EvGetSession
      (new_events fresh_world
         (fetchCredentials (provider_with (Some session_live)) fresh_world).2) = 1.
Proof.
  apply (fetchCredentials_uncached (provider_with (Some session_live))
           fresh_world signed_in_world); reflexivity.
Defined.

(** [login] does not make a connector ready. So an [init()] that follows
    a successful [login] still asks the provider, and what the provider
    answers replaces the session that [login] stored: if the provider has
    no session, the connector ends up without one. *)
Theorem login_then_init
    (getSession : list Event -> AuthResponse)
    (signInWithPassword : list Event -> string -> string -> AuthResponse)
    (username password : string) (w : World) :
  ready (conn w) = false ->
  let w1 := (login signInWithPassword username password w).2 in
  let w2 := (init getSession w1).2 in
  ready (conn w1) = false
  ∧ ready (conn w2) = true
  ∧ currentSession (conn w2) = data_session (getSession (log w1))
  ∧ count_event EvGetSession (new_events w w2) = 1.
Proof.
  intros Hready w1 w2.
  destruct (login_effect signInWithPassword username password w)
    as (_ & Hrdy & Hrest).
  fold w1 in Hrdy, Hrest. rewrite Hready in Hrdy.
  destruct (init_not_ready getSession w1 Hrdy) as (w2' & Hinit & Hconn & Hlog).
  assert (w2 = w2') as -> by (subst w2; by rewrite Hinit).
  split; [done |]. rewrite Hconn. split; [done |]. split; [done |].
  assert (∃ evs, log w1 = log w ++ evs ∧ count_event EvGetSession evs = 0)
    as (evs & Hlog1 & Hcount).
  { destruct (error (signInWithPassword (log w) username password)).
    - destruct Hrest as [_ ->]. by eexists.
    - destruct Hrest as [_ ->]. eexists. split; [done |].
      by destruct (data_session (signInWithPassword (log w) username password)). }
  rewrite (new_events_app w w2'
             (evs ++ [EvGetSession]
                  ++ option_list (EvSessionStarted <$> data_session (getSession (log w1)))
                  ++ [EvInitialized])).
  - rewrite count_event_app, Hcount.
    by destruct (data_session (getSession (log w1))).
  - by rewrite Hlog, Hlog1, <- app_assoc.
Qed.

Lemma login_then_init_witness :
  currentSession
    (conn (login sign_in_alice "alice@example.org" "secret" fresh_world).2)
  = Some session_live
  ∧ (ready (conn (login sign_in_alice "alice@example.org" "secret" fresh_world).2)
     = false
     ∧ ready (conn (init (provider_with None)
                      (login sign_in_alice "alice@example.org" "secret"
                         fresh_world).2).2) = true
     ∧ currentSession
         (conn (init (provider_with None)
                  (login sign_in_alice "alice@example.org" "secret"
                     fresh_world).2).2)
       = data_session
           (provider_with None
              (log (login sign_in_alice "alice@example.org" "secret" fresh_world).2))
     ∧ count_event EvGetSession
         (new_events fresh_world
            (init (provider_with None)
               (login sign_in_alice "alice@example.org" "secret" fresh_world).2).2)
       = 1).
Proof.
  split; [reflexivity |].
  apply (login_then_init (provider_with None) sign_in_alice
           "alice@example.org" "secret" fresh_world).
  reflexivity.
Defined.

(** The record of an upsert has the columns of the payload and ["id"],
    and no other. With no payload at all it is the identifier alone; with
    a payload that already holds the identifier under ["id"] it is the
    payload itself. *)
Theorem upsert_record_columns
    (remote : list Event -> RemoteCall -> CallOutcome)
    (op : CrudEntry) (w : World) :
  crud_op op = UpdateType_PUT ->
  ∃ record,
    dispatch remote op w = await_remote remote (Upsert (crud_table op) record) w
    ∧ dom record = {["id"]} ∪ dom (default ∅ (crud_opData op))
    ∧ (crud_opData op = None -> record = {[ "id" := JStr (crud_id op) ]})
    ∧ (∀ payload, crud_opData op = Some payload ->
         payload !! "id" = Some (JStr (crud_id op)) -> record = payload).
Proof.
  intros Hput. rewrite dispatch_remote_call_of. unfold remote_call_of.
  rewrite decide_True by done. eexists. split; [done |].
  split; [apply dom_insert_L |]. split.
  - by intros ->.
  - intros payload -> Hid. cbn. by apply insert_id.
Qed.

Lemma upsert_record_columns_witness :
  ∃ record,
    dispatch store_ok put_milk fresh_world
    = await_remote store_ok (Upsert "todos" record) fresh_world
    ∧ dom record = {["id"]} ∪ dom (default ∅ (crud_opData put_milk))
    ∧ (crud_opData put_milk = None -> record = {[ "id" := JStr "1" ]})
    ∧ (∀ payload, crud_opData put_milk = Some payload ->
         payload !! "id" = Some (JStr "1") -> record = payload).
Proof.
  apply (upsert_record_columns store_ok put_milk fresh_world).
  reflexivity.
Defined.

(** ** The upload bridge: where the requests stop *)

Section FirstFailure.

Variable remote : list Event -> RemoteCall -> CallOutcome.

(** An iteration ends normally only on a request that the store answers
    without an error. *)
Lemma replay_one_normal_cause op w w1 :
  replay_one remote op w = (Normal tt, w1) ->
  ∃ call, remote_call_of op = Some call
          ∧ remote (log w) call = Resolved None
          ∧ w1 = emit (EvRemote call) w.
Proof.
  unfold replay_one. rewrite dispatch_remote_call_of.
  destruct (remote_call_of op) as [call|]; [| done].
  unfold await_remote.
  destruct (remote (log w) call) as [[e|]|ex] eqn:Hres; cbn; try done.
  intros [= <-]. by exists call.
Qed.



End FirstFailure.


(** ** [init] under suspension, rejection and overlap *)

(** [init] is its two segments run back to back on a fetch that
    resolves. *)
Lemma init_segments (getSession : list Event -> AuthResponse) (w : World) :
  init getSession w
  = match init_start w with
    | (InitReturned, w1) => (Normal tt, w1)
    | (InitAwaiting, w1) => init_resume (Resolves (getSession (log w))) w1
    end.
Proof. unfold init, init_start. by destruct (ready (conn w)). Qed.

(** What the second segment does on a fetch that resolved. *)
Lemma init_resume_resolves (response : AuthResponse) (w : World) :
  let w' := (init_resume (Resolves response) w).2 in
  config (conn w') = config (conn w)
  ∧ ready (conn w') = true
  ∧ currentSession (conn w') = data_session response
  ∧ log w' = log w ++ option_list (EvSessionStarted <$> data_session response)
               ++ [EvInitialized].
Proof.
  cbn. destruct (data_session response) as [s|]; cbn; [| done].
  repeat split. by rewrite <- app_assoc.
Qed.

Section InitRunFacts.

Variable getSession : list Event -> AuthResponse.
Variable signInWithPassword : list Event -> string -> string -> AuthResponse.
Variable remote : list Event -> RemoteCall -> CallOutcome.

Lemma init_run_cons step steps r :
  init_run getSession signInWithPassword remote (step :: steps) r
  = init_run getSession signInWithPassword remote steps
      (init_step getSession signInWithPassword remote step r).
Proof. reflexivity. Qed.

(** [ready] and the announcement go together, step by step. *)
Lemma init_step_ready_announced step r :
  (ready (conn (world r)) = true
   ↔ 0 < count_event EvInitialized (log (world r))) ->
  let r' := init_step getSession signInWithPassword remote step r in
  ready (conn (world r')) = true
  ↔ 0 < count_event EvInitialized (log (world r')).
Proof.
  intros Hinv. destruct step as [|answer|c]; cbn [init_step].
  - unfold init_start.
    destruct (ready (conn (world r))) eqn:Hready; cbn [world emit log conn].
    + by rewrite Hready.
    + rewrite Hready, count_event_app.
      assert (count_event EvInitialized [EvGetSession] = 0) as -> by done.
      by rewrite Nat.add_0_r.
  - destruct (awaiting r) as [|n]; [done |]. cbn zeta. cbn [world].
    destruct answer as [response|ex]; [| done].
    destruct (init_resume_resolves response (world r)) as (_ & -> & _ & ->).
    rewrite !count_event_app.
    assert (count_event EvInitialized [EvInitialized] = 1) as -> by done.
    split; [lia | done].
  - cbn zeta. cbn [world].
    destruct (call_effect getSession signInWithPassword remote c (world r))
      as (_ & Hup & _ & _ & evs & Hlog & Hi & _).
    cbn zeta in *. rewrite Hlog, count_event_app, Hi.
    destruct (ready (conn (world r))) eqn:Hready.
    + rewrite (Hup eq_refl). split; [| done]. intros _.
      apply Nat.lt_lt_add_r. by apply Hinv.
    + assert (count_event EvInitialized (log (world r)) = 0) as ->.
      { destruct (count_event EvInitialized (log (world r))) eqn:Hc; [done |].
        assert (false = true) as Habs by (apply Hinv; lia). discriminate Habs. }
      destruct (ready (conn (call _ _ _ c (world r)))); split; (done || lia).
Qed.


End InitRunFacts.

(** A connector is ready exactly when [initialized] has been announced at
    least once. This holds from the constructor on and through any
    succession of steps: [init()] calls that suspend, resume in any order
    and overlap, fetches that resolve or reject, and calls of the other
    methods in between. The flag is raised in the second segment of [init]
    only, right before the announcement, and nothing lowers it. *)
Theorem ready_iff_initialized_announced
    (getSession : list Event -> AuthResponse)
    (signInWithPassword : list Event -> string -> string -> AuthResponse)
    (remote : list Event -> RemoteCall -> CallOutcome)
    (env : ImportMetaEnv) (steps : list InitStep) :
  let r := init_run getSession signInWithPassword remote steps
             (settled (new_connector env)) in
  ready (conn (world r)) = true
  ↔ 0 < count_event EvInitialized (log (world r)).
Proof.
  cbn zeta.
  assert (∀ r0,
    (ready (conn (world r0)) = true
     ↔ 0 < count_event EvInitialized (log (world r0))) ->
    ready (conn (world (init_run getSession signInWithPassword remote steps r0))) = true
    ↔ 0 < count_event EvInitialized
            (log (world (init_run getSession signInWithPassword remote steps r0))))
    as Hgen.
  { induction steps as [|step steps IH]; intros r0 Hinv; [exact Hinv |].
    rewrite init_run_cons. apply IH. by apply init_step_ready_announced. }
  apply Hgen. cbn. split; [discriminate | lia].
Qed.

Lemma ready_iff_initialized_announced_witness :
  ready (conn (world (init_run (provider_with None) sign_in_alice store_ok
                        [StepStart; StepStart; StepResume (Rejects fetch_failed);
                         StepCall (CallLogin "alice@example.org" "secret")]
                        (settled (new_connector demo_env))))) = false
  ∧ ¬ (0 < count_event EvInitialized
             (log (world (init_run (provider_with None) sign_in_alice store_ok
                            [StepStart; StepStart;
                             StepResume (Rejects fetch_failed);
                             StepCall (CallLogin "alice@example.org" "secret")]
                            (settled (new_connector demo_env)))))).
Proof.
  split; [reflexivity |]. intros Hcount.
  assert (ready (conn (world (init_run (provider_with None) sign_in_alice store_ok
                                [StepStart; StepStart;
                                 StepResume (Rejects fetch_failed);
                                 StepCall (CallLogin "alice@example.org" "secret")]
                                (settled (new_connector demo_env))))) = true)
    as Hready.
  { apply (proj2 (ready_iff_initialized_announced (provider_with None)
                    sign_in_alice store_ok demo_env
                    [StepStart; StepStart; StepResume (Rejects fetch_failed);
                     StepCall (CallLogin "alice@example.org" "secret")])).
    exact Hcount. }
  discriminate Hready.
Defined.



(** [init()] does not guard against overlap: when a second [init()]
    starts on a connector that is not ready while the first is still
    awaiting its fetch, both ask the provider and, once both fetches have
    resolved, [initialized] has been announced twice; the session that
    stays is the one of the call that resumed last. *)
Theorem overlapping_init_announces_twice
    (getSession : list Event -> AuthResponse)
    (signInWithPassword : list Event -> string -> string -> AuthResponse)
    (remote : list Event -> RemoteCall -> CallOutcome)
    (first second : AuthResponse) (w : World) :
  ready (conn w) = false ->
  let r := init_run getSession signInWithPassword remote
             [StepStart; StepStart;
              StepResume (Resolves first); StepResume (Resolves second)]
             (settled w) in
  overlapped r = true
  ∧ awaiting r = 0
  ∧ count_event EvGetSession (new_events w (world r)) = 2
  ∧ count_event EvInitialized (new_events w (world r)) = 2
  ∧ currentSession (conn (world r)) = data_session second.
Proof.
  intros Hready. cbn. unfold init_start. rewrite Hready. cbn.
  unfold init_start. cbn [conn ready emit]. rewrite Hready. cbn.
  repeat split.
  - rewrite (new_events_app w _
               ([EvGetSession; EvGetSession]
                  ++ option_list (EvSessionStarted <$> data_session first)
                  ++ [EvInitialized]
                  ++ option_list (EvSessionStarted <$> data_session second)
                  ++ [EvInitialized])).
    + by destruct (data_session first), (data_session second).
    + destruct (data_session first), (data_session second); cbn;
        by rewrite <- !app_assoc.
  - rewrite (new_events_app w _
               ([EvGetSession; EvGetSession]
                  ++ option_list (EvSessionStarted <$> data_session first)
                  ++ [EvInitialized]
                  ++ option_list (EvSessionStarted <$> data_session second)
                  ++ [EvInitialized])).
    + by destruct (data_session first), (data_session second).
    + destruct (data_session first), (data_session second); cbn;
        by rewrite <- !app_assoc.
  - by destruct (data_session first), (data_session second).
Qed.

Lemma overlapping_init_announces_twice_witness :
  ready (conn fresh_world) = false
  ∧ (overlapped
       (init_run provider_down sign_in_alice store_ok
          [StepStart; StepStart;
           StepResume (Resolves (provider_with (Some session_live) []));
           StepResume (Resolves (provider_with None []))]
          (settled fresh_world)) = true
     ∧ awaiting
         (init_run provider_down sign_in_alice store_ok
            [StepStart; StepStart;
             StepResume (Resolves (provider_with (Some session_live) []));
             StepResume (Resolves (provider_with None []))]
            (settled fresh_world)) = 0
     ∧ count_event EvGetSession
         (new_events fresh_world
            (world (init_run provider_down sign_in_alice store_ok
                      [StepStart; StepStart;
                       StepResume (Resolves (provider_with (Some session_live) []));
                       StepResume (Resolves (provider_with None []))]
                      (settled fresh_world)))) = 2
     ∧ count_event EvInitialized
         (new_events fresh_world
            (world (init_run provider_down sign_in_alice store_ok
                      [StepStart; StepStart;
                       StepResume (Resolves (provider_with (Some session_live) []));
                       StepResume (Resolves (provider_with None []))]
                      (settled fresh_world)))) = 2
     ∧ currentSession
         (conn (world (init_run provider_down sign_in_alice store_ok
                         [StepStart; StepStart;
                          StepResume (Resolves (provider_with (Some session_live) []));
                          StepResume (Resolves (provider_with None []))]
                         (settled fresh_world))))
       = data_session (provider_with None [])).
Proof.
  split; [reflexivity |].
  apply (overlapping_init_announces_twice provider_down sign_in_alice store_ok
           (provider_with (Some session_live) []) (provider_with None [])
           fresh_world).
  reflexivity.
Defined.

(** When the awaited [getSession()] rejects, [init()] throws the
    rejection and leaves the connector as it was but for the fetch: not
    ready, the same current session, nothing announced. A later [init()]
    therefore asks the provider again, and it is that second fetch whose
    session is stored and after which [initialized] is announced. *)
Theorem init_retry_after_rejection
    (getSession : list Event -> AuthResponse) (ex : JsError) (w : World) :
  ready (conn w) = false ->
  ∃ w1,
    init_start w = (InitAwaiting, w1)
    ∧ init_resume (Rejects ex) w1 = (Threw ex, w1)
    ∧ conn w1 = conn w
    ∧ new_events w w1 = [EvGetSession]
    ∧ ∃ w2,
        init getSession w1 = (Normal tt, w2)
        ∧ ready (conn w2) = true
        ∧ currentSession (conn w2) = data_session (getSession (log w1))
        ∧ count_event EvGetSession (new_events w w2) = 2
        ∧ count_event EvInitialized (new_events w w2) = 1.
Proof.
  intros Hready. exists (emit EvGetSession w).
  split; [unfold init_start; by rewrite Hready |]. split; [done |].
  split; [done |]. split; [apply grows_new_events, grows_emit |].
  destruct (init_not_ready getSession (emit EvGetSession w) Hready)
    as (w2 & Hinit & Hconn & Hlog).
  exists w2. split; [exact Hinit |]. rewrite Hconn. split; [done |]. split; [done |].
  cbn zeta in Hlog.
  rewrite (new_events_app w w2
             ([EvGetSession; EvGetSession]
                ++ option_list (EvSessionStarted
                                  <$> data_session (getSession (log (emit EvGetSession w))))
                ++ [EvInitialized])).
  - by destruct (data_session (getSession (log (emit EvGetSession w)))).
  - rewrite Hlog. cbn. by rewrite <- !app_assoc.
Qed.

Lemma init_retry_after_rejection_witness :
  ready (conn fresh_world) = false
  ∧ ∃ w1,
      init_start fresh_world = (InitAwaiting, w1)
      ∧ init_resume (Rejects fetch_failed) w1 = (Threw fetch_failed, w1)
      ∧ conn w1 = conn fresh_world
      ∧ new_events fresh_world w1 = [EvGetSession]
      ∧ ∃ w2,
          init (provider_with (Some session_live)) w1 = (Normal tt, w2)
          ∧ ready (conn w2) = true
          ∧ currentSession (conn w2)
            = data_session (provider_with (Some session_live) (log w1))
          ∧ count_event EvGetSession (new_events fresh_world w2) = 2
          ∧ count_event EvInitialized (new_events fresh_world w2) = 1.
Proof.
  split; [reflexivity |].
  apply (init_retry_after_rejection (provider_with (Some session_live))
           fetch_failed fresh_world).
  reflexivity.
Defined.
